(** * veneur: the SSF wire protocol (package [protocol], file [protocol/wire.go])

    A shallow embedding of the framing code that reads and writes SSF spans
    on a byte stream, together with the pieces of the Go standard library it
    is written against ([io.Reader], [io.Writer], [io.ReadFull],
    [encoding/binary]) and the protobuf scratch buffers it pools. *)

From Stdlib Require Import ZArith List Lia Bool.
From Stdlib.Strings Require Import Byte.
From stdpp Require Import base option list strings gmap fin_maps.

Import ListNotations.
Local Open Scope Z_scope.

(** ** Bytes *)

Module Octet.

Definition to_Z (b : byte) : Z := Z.of_N (Byte.to_N b).

(** Go's conversion [byte(v)] of an unsigned integer keeps the low 8 bits. *)
Definition of_Z (v : Z) : byte :=
  match Byte.of_N (Z.to_N (v mod 256)) with
  | Some b => b
  | None => x00
  end.

(** The conversion [uint32(n)] of a Go [int]. *)
Definition uint32 (n : Z) : Z := n mod 2 ^ 32.

(** [copy(dst[off:], src)] for a [src] that fits. *)
Definition splice (dst : list byte) (off : nat) (src : list byte) : list byte :=
  firstn off dst ++ src ++ skipn (off + length src) dst.

End Octet.

(** ** Package io *)

Module io.

Inductive IOError : Type :=
| EOF
| ErrUnexpectedEOF
| ErrOther (msg : string).

Definition IOError_eqb (a b : IOError) : bool :=
  match a, b with
  | EOF, EOF => true
  | ErrUnexpectedEOF, ErrUnexpectedEOF => true
  | ErrOther x, ErrOther y => String.eqb x y
  | _, _ => false
  end.

(** [io.Reader]: [Read r n] is one call [r.Read(p)] with [len(p) = n]; it
    gives the bytes stored at the front of [p], the error, and the reader
    afterwards. *)
Class Reader (R : Type) : Type := {
  Read : R -> nat -> (list byte * option IOError) * R
}.

(** The interface's contract [0 <= n <= len(p)]. *)
Definition Read_bounded (R : Type) {reader : Reader R} : Prop :=
  forall r n, (length (fst (fst (Read r n))) <= n)%nat.

(** [io.Writer]: [Write w p] gives the count of bytes written and the error. *)
Class Writer (W : Type) : Type := {
  Write : W -> list byte -> (nat * option IOError) * W
}.

Section ReadFull.
Context {R : Type} {reader : Reader R}.

(** The loop of [io.ReadAtLeast] with [min = len(buf)]:
    [for n < min && err == nil { nn, err = r.Read(buf[n:]); n += nn }].
    The result is [None] when the loop is still running after [fuel]
    calls of [Read]. *)
Fixpoint ReadAtLeast_loop (fuel : nat) (r : R) (buf : list byte) (n : nat)
  : option ((list byte * nat * option IOError) * R) :=
  if (n <? length buf)%nat then
    match fuel with
    | O => None
    | S fuel' =>
        let '((d, err), r') := Read r (length buf - n) in
        let buf' := Octet.splice buf n d in
        let n' := (n + length d)%nat in
        match err with
        | None => ReadAtLeast_loop fuel' r' buf' n'
        | Some e => Some ((buf', n', Some e), r')
        end
    end
  else Some ((buf, n, None), r).

(** [io.ReadFull(r, buf)] on a fresh buffer of [len] bytes: the filled
    buffer, or the error it returns. *)
Definition ReadFull (fuel : nat) (r : R) (len : nat)
  : option ((IOError + list byte) * R) :=
  match ReadAtLeast_loop fuel r (repeat x00 len) 0 with
  | None => None
  | Some ((buf, n, err), r') =>
      if (len <=? n)%nat then Some (inr buf, r')
      else match err with
           | Some e =>
               if (0 <? n)%nat && IOError_eqb e EOF
               then Some (inl ErrUnexpectedEOF, r')
               else Some (inl e, r')
           | None => Some (inr buf, r')
           end
  end.
End ReadFull.

End io.

(** ** Package encoding/binary, at the two types wire.go uses *)

Module binary.
Import io.

(** [binary.BigEndian.PutUint32]. *)
Definition PutUint32 (v : Z) : list byte :=
  [ Octet.of_Z (Z.shiftr v 24); Octet.of_Z (Z.shiftr v 16);
    Octet.of_Z (Z.shiftr v 8); Octet.of_Z v ].

(** [binary.BigEndian.Uint32]; it is only called on 4-byte slices. *)
Definition Uint32 (b : list byte) : Z :=
  match b with
  | [b0; b1; b2; b3] =>
      Z.lor (Z.lor (Z.lor (Octet.to_Z b3) (Z.shiftl (Octet.to_Z b2) 8))
                   (Z.shiftl (Octet.to_Z b1) 16))
            (Z.shiftl (Octet.to_Z b0) 24)
  | _ => 0
  end.

Section Binary.
Context {R : Type} {reader : Reader R} {W : Type} {writer : Writer W}.

(** [binary.Read(in, binary.BigEndian, &v)] for [v : uint8]. *)
Definition Read_uint8 (fuel : nat) (r : R) : option ((IOError + byte) * R) :=
  match ReadFull fuel r 1 with
  | None => None
  | Some (inl e, r') => Some (inl e, r')
  | Some (inr bs, r') => Some (inr (nth 0 bs x00), r')
  end.

(** [binary.Read(in, binary.BigEndian, &v)] for [v : uint32]. *)
Definition Read_uint32 (fuel : nat) (r : R) : option ((IOError + Z) * R) :=
  match ReadFull fuel r 4 with
  | None => None
  | Some (inl e, r') => Some (inl e, r')
  | Some (inr bs, r') => Some (inr (Uint32 bs), r')
  end.

(** [binary.Write(out, binary.BigEndian, v)]: one [Write] call with the
    encoded value; its byte count is dropped. *)
Definition Write_uint8 (w : W) (v : byte) : option IOError * W :=
  let '((_, err), w') := Write w [v] in (err, w').

Definition Write_uint32 (w : W) (v : Z) : option IOError * W :=
  let '((_, err), w') := Write w (PutUint32 v) in (err, w').
End Binary.

End binary.

(** ** Package ssf: the span and sample records *)

Module ssf.

(** A Go [float32], as its IEEE-754 binary32 bit pattern. *)
Definition float32 : Type := Z.

(** [x == 0] on a [float32]: both signed zeros compare equal to zero, so
    the test is on the 31 bits below the sign. *)
Definition float32_is_zero (x : float32) : bool :=
  Z.land x 2147483647 =? 0.

(** The constant [1], 0x3F800000. *)
Definition float32_one : float32 := 1065353216.

(** Modelled from the spec: the declaration of [ssf.SSFSample] is not
    among the sources.  A sample carries a sample rate, and name, value and
    tag fields that the wire code never looks at. *)
Record SSFSample : Type := {
  SampleName : string;
  SampleValue : float32;
  SampleTags : option (gmap string string);
  SampleRate : float32
}.

(** Modelled from the spec: the declaration of [ssf.SSFSpan] is not among
    the sources.  [Tags] is a Go map, [None] when it is nil; [Metrics] is
    the ordered sequence of samples. *)
Record SSFSpan : Type := {
  Id : Z;
  TraceId : Z;
  StartTimestamp : Z;
  EndTimestamp : Z;
  Name : string;
  Tags : option (gmap string string);
  Metrics : list SSFSample
}.

Definition set_SampleRate (rate : float32) (sample : SSFSample) : SSFSample :=
  {| SampleName := SampleName sample;
     SampleValue := SampleValue sample;
     SampleTags := SampleTags sample;
     SampleRate := rate |}.

End ssf.

(** ** Package proto: the scratch buffer, and the codec as a parameter *)

Module proto.
Import ssf.

(** What the protobuf library reports when it cannot encode or decode. *)
Inductive ProtoError : Type :=
| ErrProto (msg : string).

(** The protobuf encoding of spans is the library's, not this
    repository's: the wire code is written against any codec. *)
Class Codec : Type := {
  encode : SSFSpan -> ProtoError + list byte;
  decode : list byte -> ProtoError + SSFSpan
}.

(** What the library's round trip makes of a span: [received], decoded
    from the encoding of [sent], is field for field the span sent, except
    that an empty [Tags] map arrives as a nil one. *)
Definition same_on_the_wire (sent received : SSFSpan) : Prop :=
  Id sent = Id received /\
  TraceId sent = TraceId received /\
  StartTimestamp sent = StartTimestamp received /\
  EndTimestamp sent = EndTimestamp received /\
  Name sent = Name received /\
  default ∅ (Tags sent) = default ∅ (Tags received) /\
  Metrics sent = Metrics received.

(** [proto.Buffer], reduced to the byte slice it holds. *)
Record Buffer : Type := { buf : list byte }.

(** [proto.NewBuffer(nil)]. *)
Definition NewBuffer : Buffer := {| buf := [] |}.

(** [Buffer.Reset]: [p.buf = p.buf[0:0]]. *)
Definition Reset (p : Buffer) : Buffer := {| buf := [] |}.

(** [Buffer.SetBuf]. *)
Definition SetBuf (p : Buffer) (s : list byte) : Buffer := {| buf := s |}.

(** [Buffer.Bytes]. *)
Definition Bytes (p : Buffer) : list byte := buf p.

Section Codec.
Context {codec : Codec}.

(** [Buffer.Marshal]: the encoding is appended to what the buffer
    holds.  On an error the buffer's contents are the library's business
    and no caller here reads them. *)
Definition Marshal (p : Buffer) (pb : SSFSpan) : option ProtoError * Buffer :=
  match encode pb with
  | inr data => (None, {| buf := buf p ++ data |})
  | inl err => (Some err, p)
  end.

(** [Buffer.Unmarshal] into a fresh, zero-valued span, reading the
    bytes the buffer was set to. *)
Definition Unmarshal (p : Buffer) : ProtoError + SSFSpan :=
  decode (buf p).
End Codec.

End proto.

(** ** sync.Pool of scratch buffers *)

Module Pool.
Import proto.

(** The free list behind [pbufPool]. *)
Definition t : Type := list Buffer.

(** [pbufPool.Get()]: a free buffer when there is one, else [New()]. *)
Definition Get (pool : t) : Buffer * t :=
  match pool with
  | p :: rest => (p, rest)
  | [] => (NewBuffer, [])
  end.

(** [pbufPool.Put(p)]. *)
Definition Put (pool : t) (p : Buffer) : t := p :: pool.

(** Every free buffer has been reset. *)
Definition all_reset (pool : t) : Prop :=
  Forall (fun p => buf p = []) pool.

End Pool.

(** ** Package protocol: wire.go *)

Module protocol.
Import io ssf proto.

(** 16MB. *)
Definition MaxSSFPacketLength : Z := 16 * 1024 * 1024.

Definition SSFFrameLength : Z := 1 + 4.

Definition version0 : byte := x00.

(** Modelled from the spec: the framing error types and [IsFramingError]
    are declared in a file that is not among the sources.  A Go [error]
    returned by the wire code is a stream error or a codec error handed
    through as it came, or one of the three framing errors. *)
Inductive error : Type :=
| io_error (err : IOError)
| proto_error (err : ProtoError)
| errFramingIO (err : IOError)
| errFrameVersion (version : byte)
| errFrameLength (length : Z).

(** Modelled from the spec: fatal to the stream are exactly the framing
    I/O, frame version and frame length errors. *)
Definition IsFramingError (err : error) : bool :=
  match err with
  | errFramingIO _ | errFrameVersion _ | errFrameLength _ => true
  | io_error _ | proto_error _ => false
  end.

Record Message : Type := { span : SSFSpan }.

Record InvalidTrace : Type := { invalid_span : SSFSpan }.

Definition ValidTrace (sample : SSFSpan) : bool :=
  let ret := true in
  let ret := ret && negb (Id sample =? 0) in
  let ret := ret && negb (TraceId sample =? 0) in
  let ret := ret && negb (StartTimestamp sample =? 0) in
  let ret := ret && negb (EndTimestamp sample =? 0) in
  ret.

Definition TraceSpan (m : Message) : InvalidTrace + SSFSpan :=
  if negb (ValidTrace (span m)) then inl {| invalid_span := span m |}
  else inr (span m).

Definition Metrics_of (m : Message) : list SSFSample := Metrics (span m).

(** The body of the loop over [span.Metrics]. *)
Definition normalize_sample (sample : SSFSample) : SSFSample :=
  if float32_is_zero (SampleRate sample)
  then set_SampleRate float32_one sample
  else sample.

(** The loop [for k, v := range span.Tags { if k == "name" { span.Name = v } }]. *)
Definition name_from_tags (name : string) (tags : gmap string string) : string :=
  map_fold (fun k v name => if String.eqb k "name" then v else name) name tags.

(** The normalization steps of [ParseSSF], on the span just decoded. *)
Definition normalize (span : SSFSpan) : SSFSpan :=
  let tags := match Tags span with
              | None => ∅
              | Some tags => tags
              end in
  let '(name, tags) :=
    if String.eqb (Name span) ""
    then (name_from_tags (Name span) tags, delete "name" tags)
    else (Name span, tags) in
  {| Id := Id span;
     TraceId := TraceId span;
     StartTimestamp := StartTimestamp span;
     EndTimestamp := EndTimestamp span;
     Name := name;
     Tags := Some tags;
     Metrics := map normalize_sample (Metrics span) |}.

Section Wire.
Context {codec : Codec} {R : Type} {reader : Reader R}
        {W : Type} {writer : Writer W}.

(** The loop of [readFrame]; [None] when it is still running after
    [fuel] calls of [Read]. *)
Fixpoint readFrame_loop (fuel : nat) (in_ : R) (bts : list byte)
    (read length : nat) : option ((list byte * option IOError) * R) :=
  match fuel with
  | O => None
  | S fuel' =>
      let '((d, err), in') := Read in_ (List.length bts - read) in
      match err with
      | Some e => Some (([], Some e), in')
      | None =>
          let bts' := Octet.splice bts read d in
          let read' := (read + List.length d)%nat in
          if (read' =? length)%nat then Some ((bts', None), in')
          else readFrame_loop fuel' in' bts' read' length
      end
  end.

Definition readFrame (fuel : nat) (in_ : R) (length : nat)
  : option ((list byte * option IOError) * R) :=
  readFrame_loop fuel in_ (repeat x00 length) 0 length.

(** [ParseSSF]; the deferred reset and release run on both returns. *)
Definition ParseSSF (packet : list byte) (pool : Pool.t)
  : (error + Message) * Pool.t :=
  let '(scratchBuff, pool) := Pool.Get pool in
  let deferred (p : Buffer) := Pool.Put pool (Reset p) in
  let scratchBuff := SetBuf scratchBuff packet in
  match Unmarshal scratchBuff with
  | inl err => (inl (proto_error err), deferred scratchBuff)
  | inr span => (inr {| span := normalize span |}, deferred scratchBuff)
  end.

(** [ReadSSF]; [None] when one of its read loops is still running after
    [fuel] calls of [Read]. *)
Definition ReadSSF (fuel : nat) (in_ : R) (pool : Pool.t)
  : option ((error + Message) * R * Pool.t) :=
  match binary.Read_uint8 fuel in_ with
  | None => None
  | Some (inl err, in_) =>
      if IOError_eqb err EOF then Some (inl (io_error err), in_, pool)
      else Some (inl (errFramingIO err), in_, pool)
  | Some (inr version, in_) =>
      if negb (Byte.eqb version version0)
      then Some (inl (errFrameVersion version), in_, pool)
      else
        match binary.Read_uint32 fuel in_ with
        | None => None
        | Some (inl err, in_) => Some (inl (errFramingIO err), in_, pool)
        | Some (inr length, in_) =>
            if MaxSSFPacketLength <? length
            then Some (inl (errFrameLength length), in_, pool)
            else
              match readFrame fuel in_ (Z.to_nat length) with
              | None => None
              | Some ((_, Some err), in_) =>
                  Some (inl (errFramingIO err), in_, pool)
              | Some ((bts, None), in_) =>
                  let '(res, pool) := ParseSSF bts pool in
                  Some (res, in_, pool)
              end
        end
  end.

(** [WriteSSF]: the byte count and error it returns, the stream and the
    pool afterwards.  The reset and release are deferred only after the
    check of the [Marshal] error. *)
Definition WriteSSF (out : W) (ssf : SSFSpan) (pool : Pool.t)
  : (nat * option error) * W * Pool.t :=
  let '(pbuf, pool) := Pool.Get pool in
  let '(err, pbuf) := Marshal pbuf ssf in
  match err with
  | Some err => ((0%nat, Some (proto_error err)), out, pool)
  | None =>
      let deferred := Pool.Put pool (Reset pbuf) in
      let '(err, out) := binary.Write_uint8 out version0 in
      match err with
      | Some err => ((0%nat, Some (errFramingIO err)), out, deferred)
      | None =>
          let '(err, out) :=
            binary.Write_uint32 out
              (Octet.uint32 (Z.of_nat (List.length (Bytes pbuf)))) in
          match err with
          | Some err => ((0%nat, Some (errFramingIO err)), out, deferred)
          | None =>
              let '((n, err), out) := Write out (Bytes pbuf) in
              match err with
              | Some err => ((n, Some (errFramingIO err)), out, deferred)
              | None => ((n, None), out, deferred)
              end
          end
      end
  end.

End Wire.

End protocol.

(** ** Streams to run the wire code on *)

(** Go's [bytes.Buffer], which is both a reader and a writer: [Write]
    appends and never fails; [Read] hands out the unread bytes from the
    front, and on an empty buffer gives [io.EOF] unless [len(p) = 0]. *)
Module bytes.
Import io.

Record Buffer : Type := { unread : list byte }.

Definition Buffer_Read (b : Buffer) (n : nat)
  : (list byte * option IOError) * Buffer :=
  match unread b with
  | [] => if (n =? 0)%nat then (([], None), b) else (([], Some EOF), b)
  | _ => ((firstn n (unread b), None), {| unread := skipn n (unread b) |})
  end.

Definition Buffer_Write (b : Buffer) (p : list byte)
  : (nat * option IOError) * Buffer :=
  ((length p, None), {| unread := unread b ++ p |}).

#[global] Instance Buffer_Reader : Reader Buffer := {| Read := Buffer_Read |}.
#[global] Instance Buffer_Writer : Writer Buffer := {| Write := Buffer_Write |}.

End bytes.

(** A scripted reader in the manner of package [testing/iotest]: each event
    is the data and the error of one [Read]; an event longer than the
    caller's slice is handed out in pieces, its error with the last piece;
    past the script every [Read] gives [io.EOF]. *)
Module iotest.
Import io.

Record Script : Type := { events : list (list byte * option IOError) }.

Definition Script_Read (s : Script) (n : nat)
  : (list byte * option IOError) * Script :=
  match events s with
  | [] => (([], Some EOF), s)
  | (d, err) :: rest =>
      if (length d <=? n)%nat then ((d, err), {| events := rest |})
      else ((firstn n d, None), {| events := (skipn n d, err) :: rest |})
  end.

#[global] Instance Script_Reader : Reader Script := {| Read := Script_Read |}.

(** The bytes a list of events holds, in order. *)
Definition data (evs : list (list byte * option IOError)) : list byte :=
  concat (map fst evs).

(** No event carries an error. *)
Definition quiet (evs : list (list byte * option IOError)) : Prop :=
  Forall (fun ev => snd ev = None) evs.

End iotest.

(** Codecs and spans for the examples. *)
Module Fixture.
Import ssf proto.

Definition sample (rate : float32) : SSFSample :=
  {| SampleName := "requests"; SampleValue := float32_one;
     SampleTags := None; SampleRate := rate |}.

(** A span that is a valid trace, as a client would build it. *)
Definition span_sent : SSFSpan :=
  {| Id := 1; TraceId := 1; StartTimestamp := 2; EndTimestamp := 1;
     Name := "op"; Tags := Some ∅; Metrics := [sample float32_one] |}.

(** The same span as it is decoded: an empty map comes back as nil. *)
Definition span_received : SSFSpan :=
  {| Id := 1; TraceId := 1; StartTimestamp := 2; EndTimestamp := 1;
     Name := "op"; Tags := None; Metrics := [sample float32_one] |}.

(** A span in the older encoding: the name travels as a tag, and one
    sample has no rate. *)
Definition span_legacy : SSFSpan :=
  {| Id := 0; TraceId := 1; StartTimestamp := 1; EndTimestamp := 1;
     Name := "";
     Tags := Some (<["name" := "foo"]> (<["host" := "bar"]> ∅));
     Metrics := [sample 0; sample 1056964608] |}.

(** A codec that only ever has [span_sent] to carry. *)
Definition one_span_codec : Codec :=
  {| encode := fun _ => inr [x18; x01; x10; x01];
     decode := fun _ => inr span_received |}.

(** A codec that decodes every packet to [span_legacy]. *)
Definition legacy_codec : Codec :=
  {| encode := fun _ => inr [x10; x01];
     decode := fun _ => inr span_legacy |}.

(** A codec that refuses every span and every packet. *)
Definition failing_codec : Codec :=
  {| encode := fun _ => inl (ErrProto "proto: repeated field has nil element");
     decode := fun _ => inl (ErrProto "proto: bad wiretype") |}.

(** A codec that decodes a packet only when it starts with the tag of the
    span's id field. *)
Definition strict_codec : Codec :=
  {| encode := fun _ => inr [x18; x01; x10; x01];
     decode := fun packet =>
       match packet with
       | b :: _ =>
           if Byte.eqb b x18 then inr span_received
           else inl (ErrProto "proto: bad wiretype")
       | [] => inl (ErrProto "proto: bad wiretype")
       end |}.

(** A codec that carries the [Id] of a span and nothing else, in one
    tag byte and one value byte. *)
Definition id_span (id : Z) : SSFSpan :=
  {| Id := id; TraceId := 0; StartTimestamp := 0; EndTimestamp := 0;
     Name := ""; Tags := None; Metrics := [] |}.

Definition id_codec : Codec :=
  {| encode := fun span => inr [x18; Octet.of_Z (Id span)];
     decode := fun packet =>
       match packet with
       | [_; b] => inr (id_span (Octet.to_Z b))
       | _ => inl (ErrProto "proto: unexpected EOF")
       end |}.

(** The zero-valued span, whose encoding has no bytes at all. *)
Definition empty_codec : Codec :=
  {| encode := fun _ => inr [];
     decode := fun _ => inr (id_span 0) |}.

(** A span whose one sample has an empty, non-nil [Tags] map, and what a
    codec that does not encode empty maps hands back for it: the same span
    with the sample's [Tags] nil. *)
Definition span_sample_tags (tags : option (gmap string string)) : SSFSpan :=
  {| Id := 1; TraceId := 1; StartTimestamp := 1; EndTimestamp := 2;
     Name := "op"; Tags := None;
     Metrics := [ {| SampleName := "requests"; SampleValue := float32_one;
                     SampleTags := tags; SampleRate := float32_one |} ] |}.

Definition dropping_codec : Codec :=
  {| encode := fun _ => inr [x18; x01; x10; x01];
     decode := fun _ => inr (span_sample_tags None) |}.

(** A codec whose encoding of a span is one byte over the 16MB limit. *)
Definition oversize : Z := 16777217.

Definition oversize_codec : Codec :=
  {| encode := fun _ => inr (repeat x00 (Z.to_nat oversize));
     decode := fun _ => inr span_received |}.

End Fixture.

(** * Properties *)

Import io ssf proto protocol.

(** ** Trace validity *)

Section Validity.

Lemma ValidTrace_iff (sample : SSFSpan) :
  ValidTrace sample = true <->
  Id sample <> 0 /\ TraceId sample <> 0 /\
  StartTimestamp sample <> 0 /\ EndTimestamp sample <> 0.
Proof.
  unfold ValidTrace. cbn [andb].
  rewrite !andb_true_iff, !negb_true_iff, !Z.eqb_neq. tauto.
Qed.

(** C7.  [TraceSpan] returns the message's span exactly when its [Id],
    [TraceId], [StartTimestamp] and [EndTimestamp] are all nonzero, with no
    look at the order of the two timestamps; in every other case it returns
    an [InvalidTrace] error that carries that span. *)
Theorem TraceSpan_valid_iff (m : Message) :
  (TraceSpan m = inr (span m) <->
     Id (span m) <> 0 /\ TraceId (span m) <> 0 /\
     StartTimestamp (span m) <> 0 /\ EndTimestamp (span m) <> 0) /\
  (TraceSpan m = inl {| invalid_span := span m |} <->
     ~ (Id (span m) <> 0 /\ TraceId (span m) <> 0 /\
        StartTimestamp (span m) <> 0 /\ EndTimestamp (span m) <> 0)).
Proof.
  rewrite <- ValidTrace_iff. unfold TraceSpan.
  destruct (ValidTrace (span m)); cbn [negb]; split; split;
    intros; try reflexivity; try discriminate; try congruence.
Qed.

(** A span whose start lies after its end is still a valid trace, and a
    span without an [Id] is handed back inside the error. *)
Example TraceSpan_examples :
  TraceSpan {| span := Fixture.span_sent |} = inr Fixture.span_sent /\
  TraceSpan {| span := Fixture.span_legacy |} =
    inl {| invalid_span := Fixture.span_legacy |}.
Proof. split; reflexivity. Qed.

End Validity.

(** ** Normalization *)

Section Normalization.

Lemma float32_one_nonzero : float32_is_zero float32_one = false.
Proof. reflexivity. Qed.

(** Both signed zeros are zero; one half is not. *)
Example float32_is_zero_examples :
  float32_is_zero 0 = true /\ float32_is_zero 2147483648 = true /\
  float32_is_zero 1056964608 = false.
Proof. repeat split. Qed.

(** The loop over the tags leaves in [Name] the value under the key
    "name", if there is one. *)
Lemma name_from_tags_lookup (name : string) (tags : gmap string string) :
  name_from_tags name tags = default name (tags !! "name").
Proof.
  unfold name_from_tags.
  apply (map_fold_weak_ind (fun r (m : gmap string string) =>
                              r = default name (m !! "name"))).
  - by rewrite lookup_empty.
  - intros k v m r Hk ->.
    destruct (String.eqb_spec k "name") as [-> | Hne].
    + by rewrite lookup_insert_eq.
    + by rewrite lookup_insert_ne.
Qed.

Lemma normalize_sample_rate (sample : SSFSample) :
  float32_is_zero (SampleRate (normalize_sample sample)) = false.
Proof.
  unfold normalize_sample.
  destruct (float32_is_zero (SampleRate sample)) eqn:Hz; [reflexivity | exact Hz].
Qed.

Lemma normalize_sample_id (sample : SSFSample) :
  float32_is_zero (SampleRate sample) = false -> normalize_sample sample = sample.
Proof. unfold normalize_sample. by intros ->. Qed.

Lemma map_normalize_sample_id (samples : list SSFSample) :
  Forall (fun sample => float32_is_zero (SampleRate sample) = false) samples ->
  map normalize_sample samples = samples.
Proof.
  induction 1 as [| sample samples Hs _ IH]; [reflexivity |].
  cbn [map]. by rewrite normalize_sample_id, IH.
Qed.

(** C9.  A span that already has a non-nil [Tags], no name to take from
    the tags (its [Name] is set, or there is no "name" tag), and no sample
    with a zero rate is left as it is by the normalization step. *)
Theorem normalize_fixes_normalized (span : SSFSpan) :
  Tags span <> None ->
  (Name span <> "" \/
   forall tags, Tags span = Some tags -> tags !! "name" = None) ->
  Forall (fun sample => float32_is_zero (SampleRate sample) = false)
         (Metrics span) ->
  normalize span = span.
Proof.
  destruct span as [id tid st en name [tags |] metrics]; cbn;
    intros Htags Hname Hrates; [| congruence].
  unfold normalize; cbn.
  rewrite (map_normalize_sample_id _ Hrates).
  destruct (String.eqb_spec name "") as [-> | Hne]; [| reflexivity].
  destruct Hname as [Hname | Hname]; [congruence |].
  specialize (Hname tags eq_refl).
  by rewrite name_from_tags_lookup, Hname, delete_id.
Qed.

Lemma normalize_fixes_normalized_witness :
  normalize Fixture.span_sent = Fixture.span_sent.
Proof.
  apply normalize_fixes_normalized.
  - discriminate.
  - left. discriminate.
  - repeat constructor.
Defined.

(** X10.  Normalization is idempotent on every span, normalized or not:
    what one pass leaves behind are the three conditions above, so a second
    pass changes nothing. *)
Lemma normalize_normalize (span : SSFSpan) :
  normalize (normalize span) = normalize span.
Proof.
  apply normalize_fixes_normalized.
  - unfold normalize. by destruct (String.eqb (Name span) "").
  - unfold normalize.
    destruct (String.eqb_spec (Name span) "") as [Hname | Hname]; cbn.
    + right. intros tags [= <-]. apply lookup_delete_eq.
    + by left.
  - assert (Metrics (normalize span) = map normalize_sample (Metrics span))
      as -> by (unfold normalize; by destruct (String.eqb (Name span) "")).
    apply List.Forall_forall. intros sample Hin.
    apply in_map_iff in Hin as (sample0 & <- & _).
    apply normalize_sample_rate.
Qed.

End Normalization.

(** What [normalize] does to each field. *)
Section NormalizeFields.

Lemma normalize_Tags (span : SSFSpan) :
  Tags (normalize span) =
    Some (if String.eqb (Name span) ""
          then delete "name" (default ∅ (Tags span))
          else default ∅ (Tags span)).
Proof.
  unfold normalize.
  destruct (String.eqb (Name span) ""), (Tags span); reflexivity.
Qed.

Lemma normalize_Name (span : SSFSpan) :
  Name (normalize span) =
    if String.eqb (Name span) ""
    then default "" (default ∅ (Tags span) !! "name")
    else Name span.
Proof.
  unfold normalize.
  destruct (String.eqb_spec (Name span) "") as [Hname | Hname];
    destruct (Tags span); cbn; rewrite ?name_from_tags_lookup, ?Hname;
    reflexivity.
Qed.

Lemma normalize_Metrics (span : SSFSpan) :
  Metrics (normalize span) = map normalize_sample (Metrics span).
Proof. unfold normalize. by destruct (String.eqb (Name span) ""). Qed.

Lemma normalize_ids (span : SSFSpan) :
  Id (normalize span) = Id span /\
  TraceId (normalize span) = TraceId span /\
  StartTimestamp (normalize span) = StartTimestamp span /\
  EndTimestamp (normalize span) = EndTimestamp span.
Proof. unfold normalize. by destruct (String.eqb (Name span) ""). Qed.

(** The spec's example of the name taken from the tags. *)
Example normalize_span_legacy :
  normalize Fixture.span_legacy =
    {| Id := 0; TraceId := 1; StartTimestamp := 1; EndTimestamp := 1;
       Name := "foo"; Tags := Some (<["host" := "bar"]> ∅);
       Metrics := [Fixture.sample float32_one; Fixture.sample 1056964608] |}.
Proof. vm_compute. reflexivity. Qed.

End NormalizeFields.

(** ** Decoding, and the scratch buffers *)

Section Parse.
Context {codec : Codec}.

Lemma Pool_Get_all_reset (pool : Pool.t) :
  Pool.all_reset pool ->
  buf (fst (Pool.Get pool)) = [] /\ Pool.all_reset (snd (Pool.Get pool)).
Proof.
  unfold Pool.all_reset.
  destruct 1 as [| p rest Hp Hrest]; cbn; split; auto.
Qed.

(** [ParseSSF] gives its buffer back, reset, whether decoding worked or
    not. *)
Lemma ParseSSF_releases (packet : list byte) (pool : Pool.t) :
  snd (ParseSSF packet pool) = Pool.Put (snd (Pool.Get pool)) NewBuffer.
Proof.
  unfold ParseSSF. destruct (Pool.Get pool) as [p rest].
  destruct (Unmarshal (SetBuf p packet)); reflexivity.
Qed.

Lemma ParseSSF_all_reset (packet : list byte) (pool : Pool.t) :
  Pool.all_reset pool -> Pool.all_reset (snd (ParseSSF packet pool)).
Proof.
  intros Hpool. rewrite ParseSSF_releases.
  constructor; [reflexivity | by apply Pool_Get_all_reset].
Qed.

(** The message does not depend on which buffers are free. *)
Lemma ParseSSF_result (packet : list byte) (pool : Pool.t) :
  fst (ParseSSF packet pool) =
    match decode packet with
    | inl err => inl (proto_error err)
    | inr span => inr {| span := normalize span |}
    end.
Proof.
  unfold ParseSSF. destruct (Pool.Get pool) as [p rest].
  unfold Unmarshal, SetBuf. cbn [buf].
  destruct (decode packet); reflexivity.
Qed.

(** C6.  When the payload decodes to [span0], [ParseSSF] returns a message
    whose span has (1) a non-nil [Tags]; (2) where [span0] had an empty
    [Name] and a "name" tag, that tag's value as [Name] and no "name" key
    left in [Tags]; (3) sample for sample the [Metrics] of [span0], where a
    sample whose rate was zero now has the rate 1 (the bit pattern
    0x3F800000) and every other sample its own rate, the name, value and
    tags of each sample as decoded.  Everything else is as decoded: the four
    identifiers and timestamps; a [Name] that was set, with all the tags;
    and for an empty [Name], the tags other than "name", and the empty
    [Name] itself when there is no "name" tag. *)
Theorem ParseSSF_normalizes (packet : list byte) (pool : Pool.t)
    (span0 : SSFSpan) :
  decode packet = inr span0 ->
  exists m pool',
    ParseSSF packet pool = (inr m, pool') /\
    Tags (span m) <> None /\
    (forall tags0 v,
       Name span0 = "" -> Tags span0 = Some tags0 ->
       tags0 !! "name" = Some v ->
       Name (span m) = v /\
       exists tags, Tags (span m) = Some tags /\ tags !! "name" = None) /\
    (length (Metrics (span m)) = length (Metrics span0) /\
     forall i sample,
       Metrics span0 !! i = Some sample ->
       exists sample',
         Metrics (span m) !! i = Some sample' /\
         SampleName sample' = SampleName sample /\
         SampleValue sample' = SampleValue sample /\
         SampleTags sample' = SampleTags sample /\
         (float32_is_zero (SampleRate sample) = true ->
          SampleRate sample' = 1065353216) /\
         (float32_is_zero (SampleRate sample) = false ->
          SampleRate sample' = SampleRate sample)) /\
    (Id (span m) = Id span0 /\ TraceId (span m) = TraceId span0 /\
     StartTimestamp (span m) = StartTimestamp span0 /\
     EndTimestamp (span m) = EndTimestamp span0) /\
    (Name span0 <> "" ->
     Name (span m) = Name span0 /\
     Tags (span m) = Some (default ∅ (Tags span0))) /\
    (Name span0 = "" ->
     Tags (span m) = Some (delete "name" (default ∅ (Tags span0))) /\
     (default ∅ (Tags span0) !! "name" = None -> Name (span m) = "")).
Proof.
  intros Hdec.
  exists {| span := normalize span0 |}, (snd (ParseSSF packet pool)).
  split.
  { rewrite (surjective_pairing (ParseSSF packet pool)).
    by rewrite ParseSSF_result, Hdec. }
  cbn [span].
  rewrite normalize_Tags, normalize_Name, normalize_Metrics.
  split; [discriminate |].
  split.
  { intros tags0 v -> -> Hv. cbn. rewrite Hv. split; [reflexivity |].
    eexists; split; [reflexivity | apply lookup_delete_eq]. }
  split.
  { split; [apply length_map |].
    intros i sample Hi. exists (normalize_sample sample).
    split; [by rewrite list_lookup_fmap, Hi |].
    unfold normalize_sample.
    destruct (float32_is_zero (SampleRate sample)); cbn;
      repeat split; congruence. }
  split; [apply normalize_ids |].
  split.
  - intros Hname. apply String.eqb_neq in Hname. by rewrite Hname.
  - intros ->. cbn. split; [reflexivity |]. by intros ->.
Qed.

End Parse.

(** The span in the older encoding: the name comes out of the tags, and the
    sample without a rate gets the rate 1. *)
Lemma ParseSSF_normalizes_witness :
  exists m pool',
    ParseSSF (codec := Fixture.legacy_codec) [x10; x01] [] = (inr m, pool') /\
    Name (span m) = "foo" /\
    Tags (span m) <> None /\
    exists sample',
      Metrics (span m) !! 0%nat = Some sample' /\
      SampleRate sample' = 1065353216.
Proof.
  destruct (ParseSSF_normalizes (codec := Fixture.legacy_codec) [x10; x01] []
              Fixture.span_legacy eq_refl)
    as (m & pool' & Hparse & Htags & Hname & [_ Hsamples] & _).
  exists m, pool'. split; [exact Hparse |].
  split.
  { apply (Hname (<["name" := "foo"]> (<["host" := "bar"]> ∅)) "foo");
      reflexivity. }
  split; [exact Htags |].
  destruct (Hsamples 0%nat (Fixture.sample 0) eq_refl)
    as (sample' & Hlookup & _ & _ & _ & Hzero & _).
  exists sample'. split; [exact Hlookup | by apply Hzero].
Defined.

(** ** Encoding: the paths of [WriteSSF] *)

Section Write.
Context {codec : Codec} {W : Type} {writer : Writer W}.

(** With the [Marshal] error, [WriteSSF] returns at once: no [Write] is
    called, and the pool is the one [Get] left, without the buffer. *)
Lemma WriteSSF_encode_error (out : W) (ssf : SSFSpan) (pool : Pool.t)
    (err : ProtoError) :
  encode ssf = inl err ->
  WriteSSF out ssf pool =
    ((0%nat, Some (proto_error err)), out, snd (Pool.Get pool)).
Proof.
  intros Henc. unfold WriteSSF, Marshal.
  destruct (Pool.Get pool) as [pbuf rest]. by rewrite Henc.
Qed.

(** Once [Marshal] has worked, every return gives the buffer back,
    reset. *)
Lemma WriteSSF_encoded_releases (out : W) (ssf : SSFSpan) (pool : Pool.t)
    (data : list byte) :
  encode ssf = inr data ->
  snd (WriteSSF out ssf pool) = Pool.Put (snd (Pool.Get pool)) NewBuffer.
Proof.
  intros Henc. unfold WriteSSF, Marshal.
  destruct (Pool.Get pool) as [pbuf rest]. rewrite Henc.
  destruct (binary.Write_uint8 out version0) as [[e1 |] out1];
    [reflexivity |].
  destruct (binary.Write_uint32 out1 _) as [[e2 |] out2]; [reflexivity |].
  destruct (Write out2 _) as [[n [e3 |]] out3]; reflexivity.
Qed.

(** Whichever way [WriteSSF] returns, the free buffers stay reset: the one
    it drops on a [Marshal] error never comes back. *)
Lemma WriteSSF_all_reset (out : W) (ssf : SSFSpan) (pool : Pool.t) :
  Pool.all_reset pool -> Pool.all_reset (snd (WriteSSF out ssf pool)).
Proof.
  intros Hpool. destruct (Pool_Get_all_reset pool Hpool) as [_ Hrest].
  destruct (encode ssf) as [err | data] eqn:Henc.
  - by rewrite (WriteSSF_encode_error out ssf pool err Henc).
  - rewrite (WriteSSF_encoded_releases out ssf pool data Henc).
    by constructor.
Qed.

(** C8.  When the span cannot be serialized, [WriteSSF] returns the byte
    count 0 and the serializer's own error, which is not a framing error,
    and the output stream is the one it was given: nothing was written. *)
Theorem WriteSSF_serialization_failure (out : W) (ssf : SSFSpan)
    (pool : Pool.t) (err : ProtoError) :
  encode ssf = inl err ->
  exists pool',
    WriteSSF out ssf pool = ((0%nat, Some (proto_error err)), out, pool') /\
    IsFramingError (proto_error err) = false.
Proof.
  intros Henc. exists (snd (Pool.Get pool)).
  split; [by apply WriteSSF_encode_error | reflexivity].
Qed.

End Write.

Lemma WriteSSF_serialization_failure_witness :
  exists pool',
    WriteSSF (codec := Fixture.failing_codec)
      {| bytes.unread := [x2a] |} Fixture.span_sent [] =
      ((0%nat,
        Some (proto_error (ErrProto "proto: repeated field has nil element"))),
       {| bytes.unread := [x2a] |}, pool') /\
    IsFramingError
      (proto_error (ErrProto "proto: repeated field has nil element")) = false.
Proof.
  apply (WriteSSF_serialization_failure (codec := Fixture.failing_codec)).
  reflexivity.
Defined.

(** C1.  The discipline fails on the serialization-failure path: a pool
    holding one free buffer is empty after a [WriteSSF] whose [Marshal]
    fails, the buffer taken from it neither reset nor put back; the sibling
    [ParseSSF], failing on the same pool, leaves the buffer in it. *)
Theorem WriteSSF_failure_keeps_the_buffer :
  snd (WriteSSF (codec := Fixture.failing_codec)
         {| bytes.unread := [] |} Fixture.span_sent [NewBuffer]) = [] /\
  snd (ParseSSF (codec := Fixture.failing_codec) [x08] [NewBuffer]) =
    [NewBuffer].
Proof. split; reflexivity. Qed.

(** ** Decoding a frame: the paths of [ReadSSF] *)

Section ReadHeader.
Context {R : Type} {reader : Reader R}.

Lemma byte_eqb_neq (a b : byte) : Byte.eqb a b = false <-> a <> b.
Proof.
  split; [apply Byte.eqb_false |].
  intros Hne. destruct (Byte.eqb a b) eqn:Heq; [| reflexivity].
  by apply Byte.byte_dec_bl in Heq.
Qed.


(** One [Read] that gives one byte: [binary.Read] has the version, whatever
    error came with the byte. *)
Lemma Read_uint8_byte (fuel : nat) (r r' : R) (b : byte)
    (err : option IOError) :
  Read r 1 = (([b], err), r') ->
  binary.Read_uint8 (S fuel) r = Some (inr b, r').
Proof.
  intros Hread. unfold binary.Read_uint8, ReadFull. cbn. rewrite Hread.
  destruct err; [reflexivity |]. by destruct fuel.
Qed.

(** The stream ending inside the length field: fewer than 4 bytes and
    [io.EOF] from one [Read] make [binary.Read] fail. *)
Lemma Read_uint32_end (fuel : nat) (r r' : R) (d : list byte) :
  Read r 4 = ((d, Some EOF), r') ->
  (length d < 4)%nat ->
  binary.Read_uint32 (S fuel) r =
    Some (inl (if (0 <? length d)%nat then ErrUnexpectedEOF else EOF), r').
Proof.
  intros Hread Hlen. unfold binary.Read_uint32, ReadFull. cbn.
  rewrite Hread.
  destruct d as [| ? [| ? [| ? [| ? ?]]]]; cbn in *; try reflexivity; lia.
Qed.

End ReadHeader.

Section Read.
Context {codec : Codec} {R : Type} {reader : Reader R}.

(** [ReadSSF] after the read of the version byte. *)
Lemma ReadSSF_versioned (fuel : nat) (in_ in1 : R) (pool : Pool.t)
    (version : byte) :
  binary.Read_uint8 fuel in_ = Some (inr version, in1) ->
  version <> version0 ->
  ReadSSF fuel in_ pool = Some (inl (errFrameVersion version), in1, pool).
Proof.
  intros Hversion Hne. unfold ReadSSF. rewrite Hversion.
  apply byte_eqb_neq in Hne. by rewrite Hne.
Qed.

(** [ReadSSF] after the reads of a version 0 header. *)
Lemma ReadSSF_framed (fuel : nat) (in_ in1 in2 : R) (pool : Pool.t)
    (length : Z) :
  binary.Read_uint8 fuel in_ = Some (inr version0, in1) ->
  binary.Read_uint32 fuel in1 = Some (inr length, in2) ->
  ReadSSF fuel in_ pool =
    if MaxSSFPacketLength <? length
    then Some (inl (errFrameLength length), in2, pool)
    else
      match readFrame fuel in2 (Z.to_nat length) with
      | None => None
      | Some ((_, Some err), in3) => Some (inl (errFramingIO err), in3, pool)
      | Some ((bts, None), in3) =>
          let '(res, pool') := ParseSSF bts pool in Some (res, in3, pool')
      end.
Proof.
  intros Hversion Hlength. unfold ReadSSF.
  rewrite Hversion. cbn [negb Byte.eqb version0]. by rewrite Hlength.
Qed.


(** C5.  When the version byte read from the stream is not 0, [ReadSSF]
    returns the fatal frame version error with the reader as the read of
    that one byte left it: no read of the length or of a payload is made. *)
Theorem ReadSSF_version_mismatch (fuel : nat) (in_ in1 : R)
    (pool : Pool.t) (version : byte) :
  binary.Read_uint8 fuel in_ = Some (inr version, in1) ->
  version <> version0 ->
  ReadSSF fuel in_ pool = Some (inl (errFrameVersion version), in1, pool) /\
  IsFramingError (errFrameVersion version) = true.
Proof.
  intros Hversion Hne. split; [| reflexivity].
  by apply ReadSSF_versioned.
Qed.

(** The same at the level of the stream: one [Read] into a one-byte slice
    is all that [ReadSSF] asks of it. *)
Lemma ReadSSF_version_mismatch_one_Read (fuel : nat) (in_ in1 : R)
    (pool : Pool.t) (b : byte) (err : option IOError) :
  Read in_ 1 = (([b], err), in1) ->
  b <> version0 ->
  ReadSSF (S fuel) in_ pool = Some (inl (errFrameVersion b), in1, pool).
Proof.
  intros Hread Hne.
  by apply ReadSSF_versioned;
    [apply (Read_uint8_byte fuel _ _ _ _ Hread) |].
Qed.

(** C4.  With a header of version 0 declaring the length [length]: above
    16*1024*1024 [ReadSSF] returns the fatal frame length error with the
    reader as the header reads left it, no payload read made; up to
    16*1024*1024 the check passes and [ReadSSF] goes on to [readFrame] for
    that many bytes. *)
Theorem ReadSSF_length_bound (fuel : nat) (in_ in1 in2 : R)
    (pool : Pool.t) (length : Z) :
  binary.Read_uint8 fuel in_ = Some (inr version0, in1) ->
  binary.Read_uint32 fuel in1 = Some (inr length, in2) ->
  (16 * 1024 * 1024 < length ->
   ReadSSF fuel in_ pool = Some (inl (errFrameLength length), in2, pool) /\
   IsFramingError (errFrameLength length) = true) /\
  (length <= 16 * 1024 * 1024 ->
   ReadSSF fuel in_ pool =
     match readFrame fuel in2 (Z.to_nat length) with
     | None => None
     | Some ((_, Some err), in3) => Some (inl (errFramingIO err), in3, pool)
     | Some ((bts, None), in3) =>
         let '(res, pool') := ParseSSF bts pool in Some (res, in3, pool')
     end).
Proof.
  intros Hversion Hlength.
  rewrite (ReadSSF_framed fuel in_ in1 in2 pool length Hversion Hlength).
  unfold MaxSSFPacketLength.
  split; intros Hcmp.
  - apply Z.ltb_lt in Hcmp. by rewrite Hcmp.
  - apply Z.ltb_ge in Hcmp. by rewrite Hcmp.
Qed.

(** In [readFrame], what a failing [Read] delivered is dropped, at
    whichever turn of the loop it happens. *)
Lemma readFrame_loop_Read_error (fuel : nat) (in_ in' : R)
    (bts d : list byte) (read length : nat) (err : IOError) :
  Read in_ (List.length bts - read) = ((d, Some err), in') ->
  readFrame_loop (S fuel) in_ bts read length = Some (([], Some err), in').
Proof. intros Hread. cbn. by rewrite Hread. Qed.

Lemma readFrame_loop_error_empty (fuel : nat) :
  forall (in_ in' : R) (bts out : list byte) (read length : nat)
         (err : IOError),
    readFrame_loop fuel in_ bts read length = Some ((out, Some err), in') ->
    out = [].
Proof.
  induction fuel as [| fuel IH]; intros in_ in' bts out read length err;
    cbn; [discriminate |].
  destruct (Read in_ _) as [[d [e |]] in1]; [congruence |].
  destruct (_ =? _)%nat; [discriminate | apply IH].
Qed.

(** C10.  Whenever a [Read] inside [readFrame] returns an error,
    [readFrame] returns that error and an empty slice, whatever bytes came
    with the error and whatever had been gathered, also when those bytes
    would have completed the frame; no return of [readFrame] carries both
    an error and bytes; and [ReadSSF] turns the error into the fatal
    framing I/O error. *)
Theorem readFrame_error_over_data (fuel : nat) (in_ : R) (pool : Pool.t) :
  (forall in' bts d read length err,
     Read in_ (List.length bts - read) = ((d, Some err), in') ->
     readFrame_loop (S fuel) in_ bts read length =
       Some (([], Some err), in')) /\
  (forall in' out length err,
     readFrame fuel in_ length = Some ((out, Some err), in') -> out = []) /\
  (forall in1 in2 in3 length out err,
     binary.Read_uint8 fuel in_ = Some (inr version0, in1) ->
     binary.Read_uint32 fuel in1 = Some (inr length, in2) ->
     length <= 16 * 1024 * 1024 ->
     readFrame fuel in2 (Z.to_nat length) = Some ((out, Some err), in3) ->
     ReadSSF fuel in_ pool = Some (inl (errFramingIO err), in3, pool) /\
     IsFramingError (errFramingIO err) = true).
Proof.
  split; [| split].
  - intros in' bts d read length err. apply readFrame_loop_Read_error.
  - intros in' out length err. apply readFrame_loop_error_empty.
  - intros in1 in2 in3 length out err Hversion Hlength Hle Hframe.
    split; [| reflexivity].
    rewrite (ReadSSF_framed fuel in_ in1 in2 pool length Hversion Hlength).
    unfold MaxSSFPacketLength. apply Z.ltb_ge in Hle.
    by rewrite Hle, Hframe.
Qed.

End Read.

(** ** Frames in a [bytes.Buffer]: writing, then reading back *)

Section BigEndian.

Lemma to_Z_of_Z (v : Z) : Octet.to_Z (Octet.of_Z v) = v mod 256.
Proof.
  unfold Octet.to_Z, Octet.of_Z.
  assert (Hlt : 0 <= v mod 256 < 256) by (apply Z.mod_pos_bound; lia).
  destruct (Byte.of_N (Z.to_N (v mod 256))) as [b |] eqn:Hb.
  - apply Byte.to_of_N in Hb. rewrite Hb. lia.
  - apply Byte.of_N_None_iff in Hb. lia.
Qed.

Lemma testbit_mod_256 (x m : Z) :
  Z.testbit (x mod 256) m = (m <? 8) && Z.testbit x m.
Proof.
  change 256 with (2 ^ 8).
  destruct (Z.ltb_spec m 8) as [Hlt | Hge]; cbn [andb].
  - destruct (Z.neg_nonneg_cases m) as [Hneg | Hpos].
    + by rewrite !Z.testbit_neg_r.
    + apply Z.mod_pow2_bits_low. lia.
  - apply Z.mod_pow2_bits_high. lia.
Qed.

Lemma testbit_octet (v k n : Z) :
  0 <= k -> 0 <= n ->
  Z.testbit (Z.shiftl (Z.shiftr v k mod 256) k) n =
    (k <=? n) && (n <? k + 8) && Z.testbit v n.
Proof.
  intros Hk Hn. rewrite Z.shiftl_spec, testbit_mod_256 by lia.
  destruct (Z.leb_spec k n) as [Hle | Hgt]; cbn [andb].
  - rewrite Z.shiftr_spec by lia. replace (n - k + k) with n by lia.
    f_equal. apply eq_true_iff_eq. rewrite !Z.ltb_lt. lia.
  - rewrite (Z.testbit_neg_r _ (n - k)) by lia. apply andb_false_r.
Qed.

Lemma Uint32_PutUint32 (v : Z) :
  0 <= v < 2 ^ 32 -> binary.Uint32 (binary.PutUint32 v) = v.
Proof.
  intros Hv. unfold binary.Uint32, binary.PutUint32. rewrite !to_Z_of_Z.
  apply Z.bits_inj'. intros n Hn.
  rewrite <- (Z.shiftl_0_r (v mod 256)), <- (Z.shiftr_0_r v) at 1.
  rewrite !Z.lor_spec, !testbit_octet by lia.
  destruct (Z.ltb_spec n 32) as [Hlt | Hge].
  - destruct (Z.testbit v n); [| by rewrite !andb_false_r].
    rewrite !andb_true_r. apply eq_true_iff_eq.
    rewrite !orb_true_iff, !andb_true_iff, !Z.leb_le, !Z.ltb_lt. lia.
  - rewrite (Z.bits_above_log2 v n); [by rewrite !andb_false_r | lia |].
    destruct (Z.eq_dec v 0) as [-> | Hnz]; [cbn; lia |].
    apply Z.lt_le_trans with 32; [apply Z.log2_lt_pow2; lia | lia].
Qed.

End BigEndian.

Section OnBuffers.
Context {codec : Codec}.

Lemma ReadAtLeast_loop_full {R : Type} {reader : Reader R} (fuel : nat)
    (r : R) (b : list byte) (n : nat) :
  (length b <= n)%nat ->
  ReadAtLeast_loop fuel r b n = Some ((b, n, None), r).
Proof.
  intros Hle. apply Nat.ltb_ge in Hle.
  destruct fuel; cbn [ReadAtLeast_loop]; by rewrite Hle.
Qed.

Lemma splice_whole (n : nat) (d : list byte) :
  length d = n -> Octet.splice (repeat x00 n) 0 d = d.
Proof.
  intros <-. unfold Octet.splice. cbn [firstn Nat.add app].
  rewrite skipn_all2 by (rewrite repeat_length; lia).
  apply app_nil_r.
Qed.

Lemma Buffer_Read_some (bs : list byte) (n : nat) :
  (0 < length bs)%nat ->
  Read {| bytes.unread := bs |} n =
    ((firstn n bs, None), {| bytes.unread := skipn n bs |}).
Proof. destruct bs; cbn; [lia | reflexivity]. Qed.

Lemma Buffer_ReadFull (fuel : nat) (bs : list byte) (n : nat) :
  (0 < n <= length bs)%nat ->
  ReadFull (S fuel) {| bytes.unread := bs |} n =
    Some (inr (firstn n bs), {| bytes.unread := skipn n bs |}).
Proof.
  intros Hn. unfold ReadFull. cbn [ReadAtLeast_loop].
  rewrite repeat_length.
  assert (Hlt : (0 <? n)%nat = true) by (apply Nat.ltb_lt; lia).
  rewrite Hlt, Nat.sub_0_r, Buffer_Read_some by lia.
  assert (Hd : length (firstn n bs) = n) by (rewrite length_take; lia).
  rewrite splice_whole by exact Hd.
  rewrite ReadAtLeast_loop_full by (cbn; lia).
  cbn [Nat.add]. rewrite Hd, Nat.leb_refl. reflexivity.
Qed.

Lemma Buffer_readFrame (fuel : nat) (bs : list byte) (n : nat) :
  (n <= length bs)%nat ->
  readFrame (S fuel) {| bytes.unread := bs |} n =
    Some ((firstn n bs, None), {| bytes.unread := skipn n bs |}).
Proof.
  intros Hn. unfold readFrame. cbn [readFrame_loop].
  rewrite repeat_length, Nat.sub_0_r.
  assert (Hd : length (firstn n bs) = n) by (rewrite length_take; lia).
  destruct bs as [| b bs].
  - cbn in Hn. assert (n = 0%nat) as -> by lia. reflexivity.
  - rewrite Buffer_Read_some by (cbn; lia).
    rewrite splice_whole by exact Hd.
    cbn [Nat.add]. rewrite Hd, Nat.eqb_refl. reflexivity.
Qed.

(** The frame [WriteSSF] writes into a fresh buffer. *)
Lemma Buffer_WriteSSF (ssf : SSFSpan) (pool : Pool.t) (data : list byte) :
  encode ssf = inr data ->
  Pool.all_reset pool ->
  WriteSSF {| bytes.unread := [] |} ssf pool =
    ((length data, None),
     {| bytes.unread :=
          version0 ::
          binary.PutUint32 (Octet.uint32 (Z.of_nat (length data))) ++ data |},
     Pool.Put (snd (Pool.Get pool)) NewBuffer).
Proof.
  intros Henc Hpool. unfold WriteSSF, Marshal.
  destruct (Pool_Get_all_reset pool Hpool) as [Hbuf _].
  destruct (Pool.Get pool) as [pbuf rest]. cbn [fst snd] in *.
  rewrite Henc, Hbuf. reflexivity.
Qed.

Lemma Buffer_ReadSSF_header (fuel : nat) (len : Z) (rest : list byte) :
  0 <= len < 2 ^ 32 ->
  binary.Read_uint8 (S fuel)
    {| bytes.unread := version0 :: binary.PutUint32 len ++ rest |} =
    Some (inr version0, {| bytes.unread := binary.PutUint32 len ++ rest |}) /\
  binary.Read_uint32 (S fuel)
    {| bytes.unread := binary.PutUint32 len ++ rest |} =
    Some (inr len, {| bytes.unread := rest |}).
Proof.
  intros Hlen. unfold binary.Read_uint8, binary.Read_uint32.
  rewrite !Buffer_ReadFull by (cbn; lia).
  split; [reflexivity |].
  change (firstn 4 (binary.PutUint32 len ++ rest)) with (binary.PutUint32 len).
  by rewrite Uint32_PutUint32.
Qed.

End OnBuffers.

Section RoundTrip.
Context {codec : Codec}.

Lemma normalize_same_on_the_wire (sent received : SSFSpan) :
  same_on_the_wire sent received -> normalize sent = normalize received.
Proof.
  destruct sent, received. unfold same_on_the_wire, normalize. cbn.
  intros (-> & -> & -> & -> & -> & Htags & ->).
  replace (match Tags0 with Some tags => tags | None => ∅ end)
    with (default ∅ Tags0) by (by destruct Tags0).
  replace (match Tags1 with Some tags => tags | None => ∅ end)
    with (default ∅ Tags1) by (by destruct Tags1).
  by rewrite Htags.
Qed.

(** What [ReadSSF] finds in a buffer that starts with a frame. *)
Lemma Buffer_ReadSSF_frame (fuel : nat) (data : list byte) (pool : Pool.t) :
  Z.of_nat (length data) < 2 ^ 32 ->
  ReadSSF (S fuel)
    {| bytes.unread :=
         version0 ::
         binary.PutUint32 (Octet.uint32 (Z.of_nat (length data))) ++ data |}
    pool =
    if MaxSSFPacketLength <? Z.of_nat (length data)
    then Some (inl (errFrameLength (Z.of_nat (length data))),
               {| bytes.unread := data |}, pool)
    else Some (fst (ParseSSF data pool), {| bytes.unread := [] |},
               snd (ParseSSF data pool)).
Proof.
  intros Hlen. unfold Octet.uint32. rewrite Z.mod_small by lia.
  destruct (Buffer_ReadSSF_header fuel (Z.of_nat (length data)) data)
    as [Hversion Hlength]; [lia |].
  rewrite (ReadSSF_framed _ _ _ _ pool _ Hversion Hlength).
  destruct (MaxSSFPacketLength <? _); [reflexivity |].
  rewrite Nat2Z.id, Buffer_readFrame by lia.
  rewrite firstn_all, skipn_all.
  by destruct (ParseSSF data pool).
Qed.

End RoundTrip.

(** A span whose encoding is longer than 16MB: the span serializes,
    [WriteSSF] writes the whole frame and reports success, and [ReadSSF] on
    the bytes written returns the frame length error with the payload
    unread. *)
Lemma WriteSSF_ReadSSF_oversize_rejected :
  encode (Codec := Fixture.oversize_codec) Fixture.span_sent =
    inr (repeat x00 (Z.to_nat Fixture.oversize)) /\
  decode (Codec := Fixture.oversize_codec)
    (repeat x00 (Z.to_nat Fixture.oversize)) = inr Fixture.span_received /\
  same_on_the_wire Fixture.span_sent Fixture.span_received /\
  exists out pool1,
    WriteSSF (codec := Fixture.oversize_codec)
      {| bytes.unread := [] |} Fixture.span_sent [] =
      ((Z.to_nat Fixture.oversize, None), out, pool1) /\
    forall fuel,
      ReadSSF (codec := Fixture.oversize_codec) (S fuel) out pool1 =
        Some (inl (errFrameLength 16777217),
              {| bytes.unread := repeat x00 (Z.to_nat Fixture.oversize) |},
              pool1).
Proof.
  split; [reflexivity |]. split; [reflexivity |]. split; [repeat split |].
  pose proof (repeat_length x00 (Z.to_nat Fixture.oversize)) as Hlen.
  assert (Hsize : Z.of_nat (length (repeat x00 (Z.to_nat Fixture.oversize)))
                  = 16777217).
  { rewrite Hlen. apply Z2Nat.id. unfold Fixture.oversize. lia. }
  eexists _, _. split.
  - rewrite <- Hlen at 1.
    apply (Buffer_WriteSSF (codec := Fixture.oversize_codec));
      [reflexivity | constructor].
  - intros fuel. rewrite Buffer_ReadSSF_frame by (rewrite Hsize; lia).
    rewrite Hsize. reflexivity.
Qed.

(** ** The frame errors on concrete streams *)


(** A first byte of 1: the two bytes behind it stay in the stream. *)
Lemma ReadSSF_version_mismatch_witness :
  ReadSSF (codec := Fixture.one_span_codec) 1
    {| bytes.unread := [x01; x00; x00] |} [] =
    Some (inl (errFrameVersion x01), {| bytes.unread := [x00; x00] |}, []) /\
  IsFramingError (errFrameVersion x01) = true.
Proof.
  apply (ReadSSF_version_mismatch (codec := Fixture.one_span_codec) 1
           {| bytes.unread := [x01; x00; x00] |}
           {| bytes.unread := [x00; x00] |} [] x01).
  - reflexivity.
  - discriminate.
Defined.

(** A header declaring 16,777,217 bytes: the byte behind it stays in the
    stream.  A header declaring 4 bytes: the payload is read and parsed. *)
Lemma ReadSSF_length_bound_witness :
  ReadSSF (codec := Fixture.one_span_codec) 1
    {| bytes.unread := [x00; x01; x00; x00; x01; xff] |} [] =
    Some (inl (errFrameLength 16777217), {| bytes.unread := [xff] |}, []) /\
  ReadSSF (codec := Fixture.one_span_codec) 1
    {| bytes.unread := [x00; x00; x00; x00; x04; x18; x01; x10; x01] |} [] =
    Some (inr {| span := normalize Fixture.span_received |},
          {| bytes.unread := [] |}, [NewBuffer]).
Proof.
  split.
  - destruct (ReadSSF_length_bound (codec := Fixture.one_span_codec) 1
                {| bytes.unread := [x00; x01; x00; x00; x01; xff] |}
                {| bytes.unread := [x01; x00; x00; x01; xff] |}
                {| bytes.unread := [xff] |} [] 16777217)
      as [Hover _]; [reflexivity | reflexivity |].
    apply Hover. lia.
  - destruct (ReadSSF_length_bound (codec := Fixture.one_span_codec) 1
                {| bytes.unread :=
                     [x00; x00; x00; x00; x04; x18; x01; x10; x01] |}
                {| bytes.unread := [x00; x00; x00; x04; x18; x01; x10; x01] |}
                {| bytes.unread := [x18; x01; x10; x01] |} [] 4)
      as [_ Hpass]; [reflexivity | reflexivity |].
    rewrite Hpass by lia. reflexivity.
Defined.

(** A two-byte frame whose two bytes arrive together with [io.EOF]. *)
Lemma readFrame_error_over_data_witness :
  readFrame_loop 1 {| iotest.events := [([x61; x62], Some EOF)] |}
    [x00; x00] 0 2 =
    Some (([], Some EOF), {| iotest.events := [] |}) /\
  ReadSSF (codec := Fixture.one_span_codec) 1
    {| iotest.events :=
         [([x00; x00; x00; x00; x02], None); ([x61; x62], Some EOF)] |} [] =
    Some (inl (errFramingIO EOF), {| iotest.events := [] |}, []).
Proof.
  split.
  - apply (proj1 (readFrame_error_over_data (codec := Fixture.one_span_codec)
                    0 {| iotest.events := [([x61; x62], Some EOF)] |} [])
             {| iotest.events := [] |} [x00; x00] [x61; x62] 0%nat 2%nat EOF).
    reflexivity.
  - apply (proj2 (proj2 (readFrame_error_over_data
                           (codec := Fixture.one_span_codec) 1
                           {| iotest.events :=
                                [([x00; x00; x00; x00; x02], None);
                                 ([x61; x62], Some EOF)] |} []))
             {| iotest.events :=
                  [([x00; x00; x00; x02], None); ([x61; x62], Some EOF)] |}
             {| iotest.events := [([x61; x62], Some EOF)] |}
             {| iotest.events := [] |} 2 [] EOF);
      [reflexivity | reflexivity | lia | reflexivity].
Defined.

(** ** The two streams keep the contract of [Read] *)

Lemma Buffer_Read_bounded : Read_bounded bytes.Buffer.
Proof.
  intros [bs] n. cbn. unfold bytes.Buffer_Read. cbn.
  destruct bs as [| b bs].
  - destruct (n =? 0)%nat; cbn; lia.
  - cbn [fst]. rewrite length_take. lia.
Qed.

Lemma Script_Read_bounded : Read_bounded iotest.Script.
Proof.
  intros [evs] n. cbn. unfold iotest.Script_Read. cbn.
  destruct evs as [| [d err] rest]; [cbn; lia |].
  destruct (Nat.leb_spec (length d) n); cbn [fst].
  - assumption.
  - rewrite length_take. lia.
Qed.

(** * Further properties of the wire code *)

(** ** [readFrame], and the classes of errors *)


Section FrameLoop.
Context {R : Type} {reader : Reader R}.

Lemma splice_length (bts d : list byte) (read : nat) :
  (read + length d <= length bts)%nat ->
  length (Octet.splice bts read d) = length bts.
Proof.
  intros Hfit. unfold Octet.splice.
  rewrite !length_app, length_take, length_drop. lia.
Qed.

(** Once the count has passed the length, the loop never returns bytes. *)
Lemma readFrame_loop_overrun (fuel : nat) :
  forall (in_ in' : R) (bts out : list byte) (read length : nat),
    (length < read)%nat ->
    readFrame_loop fuel in_ bts read length <> Some ((out, None), in').
Proof.
  induction fuel as [| fuel IH]; intros in_ in' bts out read length Hover;
    cbn; [discriminate |].
  destruct (Read in_ _) as [[d [e |]] in1]; [discriminate |].
  destruct (Nat.eqb_spec (read + List.length d) length) as [Heq | Hne];
    [lia |].
  apply IH. lia.
Qed.

Lemma readFrame_loop_length (fuel : nat) :
  forall (in_ in' : R) (bts out : list byte) (read length : nat),
    (read <= length)%nat ->
    List.length bts = length ->
    readFrame_loop fuel in_ bts read length = Some ((out, None), in') ->
    List.length out = length.
Proof.
  induction fuel as [| fuel IH]; intros in_ in' bts out read length Hle Hbts;
    cbn; [discriminate |].
  destruct (Read in_ _) as [[d [e |]] in1]; [discriminate |].
  destruct (Nat.eqb_spec (read + List.length d) length) as [Heq | Hne].
  - intros [= <- _]. rewrite splice_length; lia.
  - intros Hloop.
    destruct (Nat.le_gt_cases (read + List.length d) length) as [Hfit | Hover].
    + apply (IH _ _ _ _ _ _ Hfit) in Hloop; [exact Hloop |].
      rewrite splice_length; lia.
    + by apply readFrame_loop_overrun in Hloop.
Qed.

(** X1.  When [readFrame] returns without an error, the slice it returns
    has exactly the [length] bytes asked for, whatever the reader is and
    however it cuts its reads. *)
Theorem readFrame_returns_length (fuel : nat) (in_ in' : R)
    (out : list byte) (length : nat) :
  readFrame fuel in_ length = Some ((out, None), in') ->
  List.length out = length.
Proof.
  apply readFrame_loop_length; [lia | apply repeat_length].
Qed.

End FrameLoop.

Section Classify.
Context {codec : Codec} {R : Type} {reader : Reader R}
        {W : Type} {writer : Writer W}.

(** X5.  When [WriteSSF] returns an error that is not a framing error, the
    byte count is 0, the stream is the one that was passed in (no [Write]
    was made), and the error is the serializer's own: the span did not
    encode.  So every error that follows a [Write] is a framing error. *)
Theorem WriteSSF_error_not_framing (out out' : W) (ssf : SSFSpan)
    (pool pool' : Pool.t) (n : nat) (e : error) :
  WriteSSF out ssf pool = ((n, Some e), out', pool') ->
  IsFramingError e = false ->
  n = 0%nat /\ out' = out /\
  exists err, encode ssf = inl err /\ e = proto_error err.
Proof.
  unfold WriteSSF, Marshal.
  destruct (Pool.Get pool) as [pbuf rest].
  destruct (encode ssf) as [err | data].
  - intros [= <- <- <- _] _. eauto.
  - destruct (binary.Write_uint8 out version0) as [[e1 |] out1].
    { by intros [= _ <- _ _]. }
    destruct (binary.Write_uint32 out1 _) as [[e2 |] out2].
    { by intros [= _ <- _ _]. }
    destruct (Write out2 _) as [[k [e3 |]] out3].
    + by intros [= _ <- _ _].
    + discriminate.
Qed.

Lemma ReadFull_1_EOF (fuel : nat) (r r' : R) :
  ReadFull fuel r 1 = Some (inl EOF, r') ->
  exists b, ReadAtLeast_loop fuel r [x00] 0 = Some ((b, 0%nat, Some EOF), r').
Proof.
  unfold ReadFull. cbn [repeat].
  destruct (ReadAtLeast_loop fuel r [x00] 0) as [[[[b n] err] r1] |];
    [| discriminate].
  destruct n as [| n]; cbn [Nat.leb Nat.ltb andb].
  - destruct err as [e |]; [| discriminate].
    cbn. intros [= -> ->]. eauto.
  - discriminate.
Qed.

(** X6.  An error of [ReadSSF] that is not a framing error is one of two.
    It is [io.EOF], handed through with the pool untouched, and then the
    read of the version byte ended on end-of-stream with a byte count of 0;
    or it is the codec's error for a payload that [readFrame] delivered in
    full, and then the scratch buffer is back in the pool. *)
Theorem ReadSSF_error_not_framing (fuel : nat) (in_ in' : R)
    (pool pool' : Pool.t) (e : error) :
  ReadSSF fuel in_ pool = Some (inl e, in', pool') ->
  IsFramingError e = false ->
  (e = io_error EOF /\ pool' = pool /\
   exists b,
     ReadAtLeast_loop fuel in_ [x00] 0 = Some ((b, 0%nat, Some EOF), in')) \/
  (exists in0 bts err,
     readFrame fuel in0 (length bts) = Some ((bts, None), in') /\
     decode bts = inl err /\ e = proto_error err /\
     pool' = Pool.Put (snd (Pool.Get pool)) NewBuffer).
Proof.
  unfold ReadSSF, binary.Read_uint8.
  destruct (ReadFull fuel in_ 1) as [[[e1 | bs] in1] |] eqn:Hversion;
    [| | discriminate].
  { destruct e1; cbn; try by intros [= <- _ _].
    intros [= <- <- <-] _. left. split; [reflexivity |]. split; [reflexivity |].
    by apply ReadFull_1_EOF. }
  destruct (negb _); [by intros [= <- _ _] |].
  destruct (binary.Read_uint32 fuel in1) as [[[e2 | len] in2] |];
    [by intros [= <- _ _] | | discriminate].
  destruct (_ <? _); [by intros [= <- _ _] |].
  destruct (readFrame fuel in2 (Z.to_nat len)) as [[[bts [e3 |]] in3] |] eqn:Hframe;
    [by intros [= <- _ _] | | discriminate].
  pose proof (readFrame_loop_length _ _ _ _ _ _ _ (Nat.le_0_l _)
                (repeat_length _ _) Hframe) as Hlen.
  pose proof (ParseSSF_result bts pool) as Hres.
  pose proof (ParseSSF_releases bts pool) as Hrel.
  destruct (ParseSSF bts pool) as [res pool1]. cbn [fst snd] in *.
  intros [= -> <- <-] _. right.
  destruct (decode bts) as [err |] eqn:Hdec; [| discriminate].
  injection Hres as ->.
  exists in2, bts, err. rewrite Hlen. auto.
Qed.

(** X7.  The free buffers stay reset: from a pool whose buffers are all
    empty, the pool that [WriteSSF], [ParseSSF] and [ReadSSF] leave holds
    only empty buffers, on each of their returns. *)
Theorem pool_stays_reset (pool : Pool.t) :
  Pool.all_reset pool ->
  (forall (out : W) ssf, Pool.all_reset (snd (WriteSSF out ssf pool))) /\
  (forall packet, Pool.all_reset (snd (ParseSSF packet pool))) /\
  (forall fuel (in_ in' : R) res pool',
     ReadSSF fuel in_ pool = Some (res, in', pool') ->
     Pool.all_reset pool').
Proof.
  intros Hpool. split; [| split].
  - intros out ssf. by apply WriteSSF_all_reset.
  - intros packet. by apply ParseSSF_all_reset.
  - intros fuel in_ in' res pool'. unfold ReadSSF.
    destruct (binary.Read_uint8 fuel in_) as [[[e1 | version] in1] |];
      [| | discriminate].
    { destruct (IOError_eqb e1 EOF); by intros [= _ _ <-]. }
    destruct (negb _); [by intros [= _ _ <-] |].
    destruct (binary.Read_uint32 fuel in1) as [[[e2 | len] in2] |];
      [by intros [= _ _ <-] | | discriminate].
    destruct (_ <? _); [by intros [= _ _ <-] |].
    destruct (readFrame fuel in2 (Z.to_nat len)) as [[[bts [e3 |]] in3] |];
      [by intros [= _ _ <-] | | discriminate].
    pose proof (ParseSSF_all_reset bts pool Hpool) as Hparse.
    destruct (ParseSSF bts pool) as [res1 pool1]. by intros [= _ _ <-].
Qed.

End Classify.

(** X8.  Normalization does not change whether a span is a valid trace. *)
Theorem ValidTrace_normalize (span : SSFSpan) :
  ValidTrace (normalize span) = ValidTrace span.
Proof.
  unfold ValidTrace.
  destruct (normalize_ids span) as (-> & -> & -> & ->). reflexivity.
Qed.

Section Samples.
Context {codec : Codec}.

(** X12.  In every message that [ParseSSF] returns, whatever the packet, no
    sample handed out by [Metrics] has a zero sample rate, and the span's
    [Tags] is not nil. *)
Theorem ParseSSF_Metrics_rates (packet : list byte) (pool pool' : Pool.t)
    (m : Message) :
  ParseSSF packet pool = (inr m, pool') ->
  Forall (fun sample => float32_is_zero (SampleRate sample) = false)
         (Metrics_of m) /\
  Tags (span m) <> None.
Proof.
  intros Hparse. pose proof (ParseSSF_result packet pool) as Hres.
  rewrite Hparse in Hres. cbn [fst] in Hres.
  destruct (decode packet) as [err | span0]; [discriminate |].
  injection Hres as ->. unfold Metrics_of. cbn [span].
  split.
  - rewrite normalize_Metrics. apply List.Forall_forall. intros sample Hin.
    apply in_map_iff in Hin as (sample0 & <- & _).
    apply normalize_sample_rate.
  - rewrite normalize_Tags. discriminate.
Qed.
End Samples.

(** ** Frames in a [bytes.Buffer], one after the other *)


Section Frames.
Context {codec : Codec}.

(** [WriteSSF] on a buffer that already holds bytes. *)
Lemma Buffer_WriteSSF_append (out : bytes.Buffer) (ssf : SSFSpan)
    (pool : Pool.t) (data : list byte) :
  encode ssf = inr data ->
  Pool.all_reset pool ->
  WriteSSF out ssf pool =
    ((length data, None),
     {| bytes.unread :=
          bytes.unread out ++
          version0 ::
          binary.PutUint32 (Octet.uint32 (Z.of_nat (length data))) ++ data |},
     Pool.Put (snd (Pool.Get pool)) NewBuffer).
Proof.
  intros Henc Hpool. unfold WriteSSF, Marshal.
  destruct (Pool_Get_all_reset pool Hpool) as [Hbuf _].
  destruct (Pool.Get pool) as [pbuf rest]. cbn [fst snd] in *.
  rewrite Henc, Hbuf. cbn. rewrite <- !app_assoc. reflexivity.
Qed.

Lemma uint32_small (v : Z) : 0 <= v < 2 ^ 32 -> Octet.uint32 v = v.
Proof. apply Z.mod_small. Qed.

Lemma Buffer_ReadSSF_frame_rest (fuel : nat) (data rest : list byte)
    (pool : Pool.t) :
  Z.of_nat (length data) <= MaxSSFPacketLength ->
  ReadSSF (S fuel)
    {| bytes.unread :=
         version0 ::
         binary.PutUint32 (Z.of_nat (length data)) ++ data ++ rest |} pool =
    Some (fst (ParseSSF data pool), {| bytes.unread := rest |},
          snd (ParseSSF data pool)).
Proof.
  unfold MaxSSFPacketLength. intros Hlen.
  destruct (Buffer_ReadSSF_header fuel (Z.of_nat (length data)) (data ++ rest))
    as [Hversion Hlength]; [lia |].
  rewrite (ReadSSF_framed _ _ _ _ pool _ Hversion Hlength).
  unfold MaxSSFPacketLength. apply Z.ltb_ge in Hlen. rewrite Hlen.
  rewrite Nat2Z.id, Buffer_readFrame by (rewrite length_app; lia).
  rewrite take_app_length, drop_app_length.
  by destruct (ParseSSF data pool).
Qed.

Lemma Buffer_ReadSSF_frame_end (fuel : nat) (data : list byte)
    (pool : Pool.t) :
  Z.of_nat (length data) <= MaxSSFPacketLength ->
  ReadSSF (S fuel)
    {| bytes.unread :=
         version0 :: binary.PutUint32 (Z.of_nat (length data)) ++ data |}
    pool =
    Some (fst (ParseSSF data pool), {| bytes.unread := [] |},
          snd (ParseSSF data pool)).
Proof.
  intros Hlen.
  pose proof (Buffer_ReadSSF_frame_rest fuel data [] pool Hlen) as Hread.
  by rewrite app_nil_r in Hread.
Qed.

(** X4.  On a [bytes.Buffer], with the free buffers reset, [WriteSSF] of a
    span that encodes to [data] returns [len(data)] and appends one frame
    behind what the buffer held: 5 + len(data) bytes, first the version
    byte 0, then the big-endian length field holding len(data) modulo 2^32,
    then [data] itself. *)
Theorem WriteSSF_appends_one_frame (out : bytes.Buffer) (ssf : SSFSpan)
    (pool : Pool.t) (data : list byte) :
  encode ssf = inr data ->
  Pool.all_reset pool ->
  exists frame pool',
    WriteSSF out ssf pool =
      ((length data, None),
       {| bytes.unread := bytes.unread out ++ frame |}, pool') /\
    length frame = (5 + length data)%nat /\
    firstn 1 frame = [version0] /\
    binary.Uint32 (firstn 4 (skipn 1 frame)) =
      Z.of_nat (length data) mod 2 ^ 32 /\
    skipn 5 frame = data.
Proof.
  intros Henc Hpool. eexists _, _.
  split; [by apply Buffer_WriteSSF_append |].
  split; [reflexivity |].
  split; [reflexivity |].
  split; [| reflexivity].
  cbn [skipn].
  change (firstn 4 (binary.PutUint32 ?v ++ data)) with (binary.PutUint32 v).
  apply Uint32_PutUint32. unfold Octet.uint32.
  apply Z.mod_pos_bound. lia.
Qed.

(** X3.  From a [bytes.Buffer] that starts with a frame of at most
    16*1024*1024 payload bytes, [ReadSSF] takes exactly that frame: the
    bytes behind it are left unread, the result is the normalized span or
    the codec's error for this payload, and the scratch buffer is back in
    the pool.  An empty payload is read like any other. *)
Theorem ReadSSF_consumes_one_frame (fuel : nat) (data rest : list byte)
    (pool : Pool.t) :
  Z.of_nat (length data) <= 16 * 1024 * 1024 ->
  ReadSSF (S fuel)
    {| bytes.unread :=
         version0 :: binary.PutUint32 (Z.of_nat (length data)) ++
         data ++ rest |} pool =
    Some (match decode data with
          | inl err => inl (proto_error err)
          | inr span => inr {| span := normalize span |}
          end,
          {| bytes.unread := rest |},
          Pool.Put (snd (Pool.Get pool)) NewBuffer).
Proof.
  intros Hlen.
  rewrite Buffer_ReadSSF_frame_rest by exact Hlen.
  by rewrite ParseSSF_result, ParseSSF_releases.
Qed.

(** X9.  A payload that does not decode costs only its own frame: [ReadSSF]
    returns the codec's error, which is not a framing error, with the
    reader at the start of the next frame, and the next [ReadSSF] returns
    that frame's message. *)
Theorem ReadSSF_decode_error_recoverable (fuel : nat)
    (bad good rest : list byte) (pool : Pool.t) (err : ProtoError)
    (span0 : SSFSpan) :
  Z.of_nat (length bad) <= 16 * 1024 * 1024 ->
  Z.of_nat (length good) <= 16 * 1024 * 1024 ->
  decode bad = inl err ->
  decode good = inr span0 ->
  exists in1 pool1 pool2,
    ReadSSF (S fuel)
      {| bytes.unread :=
           (version0 :: binary.PutUint32 (Z.of_nat (length bad)) ++ bad) ++
           (version0 :: binary.PutUint32 (Z.of_nat (length good)) ++ good) ++
           rest |} pool =
      Some (inl (proto_error err), in1, pool1) /\
    IsFramingError (proto_error err) = false /\
    ReadSSF (S fuel) in1 pool1 =
      Some (inr {| span := normalize span0 |},
            {| bytes.unread := rest |}, pool2).
Proof.
  intros Hbad Hgood Hdecbad Hdecgood.
  eexists _, _, _.
  split; [| split; [reflexivity |]].
  - cbn [app]. rewrite <- !app_assoc.
    rewrite Buffer_ReadSSF_frame_rest by exact Hbad.
    by rewrite ParseSSF_result, Hdecbad.
  - cbn [app].
    rewrite Buffer_ReadSSF_frame_rest by exact Hgood.
    by rewrite ParseSSF_result, Hdecgood.
Qed.

(** X13.  Frames keep their order and their boundaries.  When two spans
    that encode to payloads of at most 16*1024*1024 bytes each are written
    one after the other with [WriteSSF] into a fresh [bytes.Buffer], the
    free buffers of the pool being reset, two calls of [ReadSSF] return
    first what [ParseSSF] makes of the first span's payload and then what it
    makes of the second's (the normalized span it decodes to, or the
    codec's error), and leave the buffer empty. *)
Theorem WriteSSF_twice_ReadSSF_twice (fuel : nat) (ssf1 ssf2 : SSFSpan)
    (d1 d2 : list byte) (pool : Pool.t) :
  encode ssf1 = inr d1 ->
  encode ssf2 = inr d2 ->
  Z.of_nat (length d1) <= 16 * 1024 * 1024 ->
  Z.of_nat (length d2) <= 16 * 1024 * 1024 ->
  Pool.all_reset pool ->
  exists out1 out2 in1 p1 p2 p3 p4,
    WriteSSF {| bytes.unread := [] |} ssf1 pool =
      ((length d1, None), out1, p1) /\
    WriteSSF out1 ssf2 p1 = ((length d2, None), out2, p2) /\
    ReadSSF (S fuel) out2 p2 =
      Some (match decode d1 with
            | inl err => inl (proto_error err)
            | inr span => inr {| span := normalize span |}
            end, in1, p3) /\
    ReadSSF (S fuel) in1 p3 =
      Some (match decode d2 with
            | inl err => inl (proto_error err)
            | inr span => inr {| span := normalize span |}
            end, {| bytes.unread := [] |}, p4).
Proof.
  intros He1 He2 Hl1 Hl2 Hpool.
  eexists _, _, _, _, _, _, _.
  split; [by apply Buffer_WriteSSF_append |].
  split.
  { apply Buffer_WriteSSF_append; [exact He2 |].
    constructor; [reflexivity | by apply Pool_Get_all_reset]. }
  cbn [bytes.unread app].
  rewrite !uint32_small by lia.
  split.
  - rewrite <- app_assoc.
    rewrite Buffer_ReadSSF_frame_rest by exact Hl1.
    by rewrite ParseSSF_result.
  - rewrite Buffer_ReadSSF_frame_end by exact Hl2.
    by rewrite ParseSSF_result.
Qed.

End Frames.

(** ** Streams that end early, and streams that deliver in pieces *)
Section Truncated.
Context {codec : Codec}.

Lemma Buffer_readFrame_short (fuel : nat) (bs : list byte) (n : nat) :
  (length bs < n)%nat ->
  readFrame (S (S fuel)) {| bytes.unread := bs |} n =
    Some (([], Some EOF), {| bytes.unread := [] |}).
Proof.
  intros Hshort. unfold readFrame. cbn [readFrame_loop].
  rewrite repeat_length, Nat.sub_0_r.
  destruct bs as [| b bs].
  - cbn. destruct n; [cbn in Hshort; lia | reflexivity].
  - rewrite Buffer_Read_some by (cbn; lia).
    rewrite firstn_all2, skipn_all2 by lia.
    cbn [Nat.add].
    destruct (Nat.eqb_spec (length (b :: bs)) n) as [Heq | _]; [lia |].
    rewrite splice_length by (rewrite repeat_length; lia).
    rewrite repeat_length. cbn [Read bytes.Buffer_Reader bytes.Buffer_Read bytes.unread].
    destruct (Nat.eqb_spec (n - length (b :: bs)) 0) as [Heq | _]; [lia |].
    reflexivity.
Qed.

(** X11.  A stream that ends inside the payload: when the header declares
    more bytes than the [bytes.Buffer] still holds, [ReadSSF] returns the
    framing I/O error around plain [io.EOF] (not [io.ErrUnexpectedEOF]),
    the bytes that did arrive are dropped, and the pool is untouched. *)
Theorem ReadSSF_truncated_payload (fuel : nat) (len : Z) (bs : list byte)
    (pool : Pool.t) :
  0 <= len <= 16 * 1024 * 1024 ->
  (length bs < Z.to_nat len)%nat ->
  ReadSSF (S (S fuel))
    {| bytes.unread := version0 :: binary.PutUint32 len ++ bs |} pool =
    Some (inl (errFramingIO EOF), {| bytes.unread := [] |}, pool) /\
  IsFramingError (errFramingIO EOF) = true.
Proof.
  intros Hlen Hshort. split; [| reflexivity].
  destruct (Buffer_ReadSSF_header (S fuel) len bs) as [Hversion Hlength];
    [lia |].
  rewrite (ReadSSF_framed _ _ _ _ pool _ Hversion Hlength).
  unfold MaxSSFPacketLength.
  destruct (Z.ltb_spec (16 * 1024 * 1024) len) as [Hover | _]; [lia |].
  by rewrite Buffer_readFrame_short.
Qed.

End Truncated.

Section Chunks.
Context {codec : Codec}.

Lemma skipn_repeat (k n : nat) :
  skipn k (repeat x00 n) = repeat x00 (n - k).
Proof.
  revert n. induction k as [| k IH]; intros [| n]; cbn; auto.
Qed.

Lemma splice_fill (acc d : list byte) (k : nat) :
  (length d <= k)%nat ->
  Octet.splice (acc ++ repeat x00 k) (length acc) d =
    (acc ++ d) ++ repeat x00 (k - length d).
Proof.
  intros Hfit. unfold Octet.splice.
  rewrite take_app_length, drop_app_add, skipn_repeat.
  by rewrite <- app_assoc.
Qed.

(** The loop of [readFrame] on a script without errors. *)
Lemma readFrame_loop_script (evs : list (list byte * option IOError)) :
  forall (fuel : nat) (acc : list byte) (n : nat),
    iotest.quiet evs ->
    (length evs <= fuel)%nat ->
    (length acc < n)%nat ->
    (n - length acc <= length (iotest.data evs))%nat ->
    exists evs',
      readFrame_loop fuel {| iotest.events := evs |}
        (acc ++ repeat x00 (n - length acc)) (length acc) n =
        Some ((acc ++ firstn (n - length acc) (iotest.data evs), None),
              {| iotest.events := evs' |}) /\
      iotest.data evs' = skipn (n - length acc) (iotest.data evs) /\
      iotest.quiet evs' /\ (length evs' <= length evs)%nat.
Proof.
  induction evs as [| [d err] evs IH]; intros fuel acc n Hquiet Hfuel Hacc Hdata.
  { cbn in Hdata. lia. }
  apply Forall_cons in Hquiet as [Herr Hquiet]. cbn in Herr. subst err.
  destruct fuel as [| fuel]; [cbn in Hfuel; lia |].
  cbn [length] in Hfuel. unfold iotest.data in *. cbn [map concat fst] in *.
  rewrite length_app in Hdata.
  cbn [readFrame_loop].
  rewrite length_app, repeat_length.
  replace (length acc + (n - length acc) - length acc)%nat
    with (n - length acc)%nat by lia.
  cbn [Read iotest.Script_Reader iotest.Script_Read iotest.events].
  destruct (Nat.leb_spec (length d) (n - length acc)) as [Hfit | Hsplit].
  - rewrite splice_fill by exact Hfit.
    destruct (Nat.eqb_spec (length acc + length d) n) as [Hdone | Hmore].
    + exists evs.
      replace (n - length acc - length d)%nat with 0%nat by lia.
      replace (n - length acc)%nat with (length d) by lia.
      rewrite take_app_length, drop_app_length. cbn [repeat].
      rewrite app_nil_r.
      split; [reflexivity |]. split; [reflexivity |].
      split; [exact Hquiet | cbn [length]; lia].
    + destruct (IH fuel (acc ++ d) n) as (evs' & Hloop & Hrest & Hq & Hlen);
        [exact Hquiet | lia | rewrite length_app; lia
        | rewrite length_app; lia |].
      exists evs'. rewrite length_app in Hloop, Hrest.
      replace (n - length acc - length d)%nat
        with (n - (length acc + length d))%nat by lia.
      rewrite Hloop. split; [| split; [| split; [exact Hq | cbn [length]; lia]]].
      * rewrite <- app_assoc, take_app_ge by lia.
        by replace (n - length acc - length d)%nat
          with (n - (length acc + length d))%nat by lia.
      * rewrite Hrest, drop_app_ge by lia.
        by replace (n - length acc - length d)%nat
          with (n - (length acc + length d))%nat by lia.
  - assert (Hcap : length (firstn (n - length acc) d) = (n - length acc)%nat)
      by (rewrite length_take; lia).
    rewrite splice_fill by lia. rewrite Hcap.
    destruct (Nat.eqb_spec (length acc + (n - length acc)) n) as [_ | Hne];
      [| lia].
    exists ((skipn (n - length acc) d, None) :: evs).
    rewrite Nat.sub_diag. cbn [repeat]. rewrite app_nil_r.
    split; [| split; [| split]].
    + by rewrite take_app_le by lia.
    + cbn [map concat fst]. by rewrite drop_app_le by lia.
    + by constructor.
    + cbn [length]. lia.
Qed.

(** The loop of [io.ReadAtLeast] on a script without errors. *)
Lemma ReadAtLeast_loop_script (evs : list (list byte * option IOError)) :
  forall (fuel : nat) (acc : list byte) (n : nat),
    iotest.quiet evs ->
    (length evs <= fuel)%nat ->
    (length acc < n)%nat ->
    (n - length acc <= length (iotest.data evs))%nat ->
    exists evs',
      ReadAtLeast_loop fuel {| iotest.events := evs |}
        (acc ++ repeat x00 (n - length acc)) (length acc) =
        Some ((acc ++ firstn (n - length acc) (iotest.data evs), n, None),
              {| iotest.events := evs' |}) /\
      iotest.data evs' = skipn (n - length acc) (iotest.data evs) /\
      iotest.quiet evs' /\ (length evs' <= length evs)%nat.
Proof.
  induction evs as [| [d err] evs IH]; intros fuel acc n Hquiet Hfuel Hacc Hdata.
  { cbn in Hdata. lia. }
  apply Forall_cons in Hquiet as [Herr Hquiet]. cbn in Herr. subst err.
  destruct fuel as [| fuel]; [cbn in Hfuel; lia |].
  cbn [length] in Hfuel. unfold iotest.data in *. cbn [map concat fst] in *.
  rewrite length_app in Hdata.
  cbn [ReadAtLeast_loop].
  rewrite length_app, repeat_length.
  replace (length acc + (n - length acc))%nat with n by lia.
  destruct (Nat.ltb_spec (length acc) n) as [_ | Hge]; [| lia].
  cbn [Read iotest.Script_Reader iotest.Script_Read iotest.events].
  destruct (Nat.leb_spec (length d) (n - length acc)) as [Hfit | Hsplit].
  - rewrite splice_fill by exact Hfit.
    destruct (Nat.eq_dec (length acc + length d)%nat n) as [Hdone | Hmore].
    + exists evs.
      rewrite ReadAtLeast_loop_full
        by (rewrite !length_app, repeat_length; lia).
      replace (n - length acc - length d)%nat with 0%nat by lia.
      replace (n - length acc)%nat with (length d) by lia.
      rewrite take_app_length, drop_app_length. cbn [repeat].
      rewrite app_nil_r, Hdone.
      split; [reflexivity |]. split; [reflexivity |].
      split; [exact Hquiet | cbn [length]; lia].
    + destruct (IH fuel (acc ++ d) n) as (evs' & Hloop & Hrest & Hq & Hlen);
        [exact Hquiet | lia | rewrite length_app; lia
        | rewrite length_app; lia |].
      exists evs'. rewrite length_app in Hloop, Hrest.
      replace (n - length acc - length d)%nat
        with (n - (length acc + length d))%nat by lia.
      rewrite Hloop. split; [| split; [| split; [exact Hq | cbn [length]; lia]]].
      * rewrite <- app_assoc, take_app_ge by lia.
        by replace (n - length acc - length d)%nat
          with (n - (length acc + length d))%nat by lia.
      * rewrite Hrest, drop_app_ge by lia.
        by replace (n - length acc - length d)%nat
          with (n - (length acc + length d))%nat by lia.
  - assert (Hcap : length (firstn (n - length acc) d) = (n - length acc)%nat)
      by (rewrite length_take; lia).
    rewrite splice_fill by lia. rewrite Hcap.
    rewrite ReadAtLeast_loop_full
      by (rewrite !length_app, repeat_length, Hcap; lia).
    exists ((skipn (n - length acc) d, None) :: evs).
    rewrite Nat.sub_diag. cbn [repeat]. rewrite app_nil_r.
    replace (length acc + (n - length acc))%nat with n by lia.
    split; [| split; [| split]].
    + by rewrite take_app_le by lia.
    + cbn [map concat fst]. by rewrite drop_app_le by lia.
    + by constructor.
    + cbn [length]. lia.
Qed.

Lemma ReadFull_script (fuel : nat) (evs : list (list byte * option IOError))
    (n : nat) :
  iotest.quiet evs ->
  (length evs <= fuel)%nat ->
  (0 < n <= length (iotest.data evs))%nat ->
  exists evs',
    ReadFull fuel {| iotest.events := evs |} n =
      Some (inr (firstn n (iotest.data evs)), {| iotest.events := evs' |}) /\
    iotest.data evs' = skipn n (iotest.data evs) /\
    iotest.quiet evs' /\ (length evs' <= length evs)%nat.
Proof.
  intros Hquiet Hfuel Hn.
  destruct (ReadAtLeast_loop_script evs fuel [] n)
    as (evs' & Hloop & Hrest & Hq & Hlen); [done | done | cbn; lia | cbn; lia |].
  cbn [length app] in Hloop, Hrest. rewrite Nat.sub_0_r in Hloop, Hrest.
  exists evs'. unfold ReadFull. rewrite Hloop, Nat.leb_refl. auto.
Qed.

Lemma readFrame_script (fuel : nat) (evs : list (list byte * option IOError))
    (n : nat) :
  iotest.quiet evs ->
  (length evs <= fuel)%nat ->
  (0 < n <= length (iotest.data evs))%nat ->
  exists evs',
    readFrame fuel {| iotest.events := evs |} n =
      Some ((firstn n (iotest.data evs), None), {| iotest.events := evs' |}) /\
    iotest.data evs' = skipn n (iotest.data evs) /\
    iotest.quiet evs' /\ (length evs' <= length evs)%nat.
Proof.
  intros Hquiet Hfuel Hn.
  destruct (readFrame_loop_script evs fuel [] n)
    as (evs' & Hloop & Hrest & Hq & Hlen); [done | done | cbn; lia | cbn; lia |].
  cbn [length app] in Hloop, Hrest. rewrite Nat.sub_0_r in Hloop, Hrest.
  exists evs'. unfold readFrame. rewrite Hloop. auto.
Qed.

(** What [ReadSSF] finds in a script that starts with a frame. *)
Lemma ReadSSF_script_frame (fuel : nat)
    (evs : list (list byte * option IOError)) (payload rest : list byte)
    (pool : Pool.t) :
  iotest.quiet evs ->
  iotest.data evs =
    version0 :: binary.PutUint32 (Z.of_nat (length payload)) ++
    payload ++ rest ->
  (0 < length payload)%nat ->
  Z.of_nat (length payload) <= 16 * 1024 * 1024 ->
  (length evs <= fuel)%nat ->
  exists evs',
    ReadSSF fuel {| iotest.events := evs |} pool =
      Some (fst (ParseSSF payload pool), {| iotest.events := evs' |},
            snd (ParseSSF payload pool)) /\
    iotest.data evs' = rest /\ iotest.quiet evs'.
Proof.
  intros Hquiet Hdata Hpayload Hmax Hfuel.
  destruct (ReadFull_script fuel evs 1 Hquiet Hfuel)
    as (evs1 & Hread1 & Hdata1 & Hquiet1 & Hlen1);
    [rewrite Hdata; cbn [length]; lia |].
  rewrite Hdata in Hread1, Hdata1.
  change (firstn 1 (?b :: ?l)) with [b] in Hread1.
  change (skipn 1 (?b :: ?l)) with l in Hdata1.
  destruct (ReadFull_script fuel evs1 4 Hquiet1)
    as (evs2 & Hread2 & Hdata2 & Hquiet2 & Hlen2);
    [lia | rewrite Hdata1, length_app; cbn [binary.PutUint32 length]; lia |].
  rewrite Hdata1 in Hread2, Hdata2.
  change (firstn 4 (binary.PutUint32 ?v ++ ?l)) with (binary.PutUint32 v)
    in Hread2.
  change (skipn 4 (binary.PutUint32 ?v ++ ?l)) with l in Hdata2.
  destruct (readFrame_script fuel evs2 (length payload) Hquiet2)
    as (evs3 & Hread3 & Hdata3 & Hquiet3 & Hlen3);
    [lia | rewrite Hdata2, length_app; lia |].
  rewrite Hdata2, take_app_length in Hread3.
  rewrite Hdata2, drop_app_length in Hdata3.
  exists evs3. split; [| by split].
  rewrite (ReadSSF_framed fuel _ {| iotest.events := evs1 |}
             {| iotest.events := evs2 |} pool (Z.of_nat (length payload))).
  - unfold MaxSSFPacketLength. apply Z.ltb_ge in Hmax. rewrite Hmax.
    rewrite Nat2Z.id, Hread3.
    by destruct (ParseSSF payload pool).
  - unfold binary.Read_uint8. by rewrite Hread1.
  - unfold binary.Read_uint32. rewrite Hread2.
    by rewrite Uint32_PutUint32 by lia.
Qed.

(** X2.  [ReadSSF] does not depend on how the stream cuts the frame into
    reads.  For a scripted stream without errors whose events hold, in any
    fragmentation (empty reads included), a frame with a non-empty payload
    of at most 16*1024*1024 bytes followed by [rest], and with fuel for one
    [Read] per event, [ReadSSF] returns what the payload parses to and
    leaves exactly [rest] in the stream. *)
Theorem ReadSSF_on_fragments (fuel : nat)
    (evs : list (list byte * option IOError)) (payload rest : list byte)
    (pool : Pool.t) :
  iotest.quiet evs ->
  iotest.data evs =
    version0 :: binary.PutUint32 (Z.of_nat (length payload)) ++
    payload ++ rest ->
  (0 < length payload)%nat ->
  Z.of_nat (length payload) <= 16 * 1024 * 1024 ->
  (length evs <= fuel)%nat ->
  exists evs',
    ReadSSF fuel {| iotest.events := evs |} pool =
      Some (match decode payload with
            | inl err => inl (proto_error err)
            | inr span => inr {| span := normalize span |}
            end,
            {| iotest.events := evs' |},
            Pool.Put (snd (Pool.Get pool)) NewBuffer) /\
    iotest.data evs' = rest /\ iotest.quiet evs'.
Proof.
  intros Hquiet Hdata Hpayload Hmax Hfuel.
  destruct (ReadSSF_script_frame fuel evs payload rest pool
              Hquiet Hdata Hpayload Hmax Hfuel)
    as (evs' & Hread & Hrest & Hquiet').
  exists evs'. split; [| by split].
  by rewrite Hread, ParseSSF_result, ParseSSF_releases.
Qed.

End Chunks.

(** ** The round trip of a span through a stream *)

Section RoundTripStreams.
Context {codec : Codec}.

(** C2, with the conditions the round trip needs.  Take a span whose
    encoding [data] is at most 16*1024*1024 bytes long and which the
    decoder turns back into the span that was sent, a nil [Tags] standing
    for an empty one.  Then [WriteSSF] into a fresh [bytes.Buffer] writes
    one frame and returns the payload length; [ReadSSF] on that buffer
    returns a message whose span is the normalized original and leaves the
    buffer empty; when the payload has at least one byte, [ReadSSF] returns
    the same message from every stream that delivers the bytes written
    without an error, in whatever fragmentation; and what [ParseSSF] makes
    of a packet is the same whatever the state of the pool it runs on. *)
Theorem WriteSSF_ReadSSF_roundtrip (ssf received : SSFSpan)
    (data : list byte) (pool : Pool.t) :
  encode ssf = inr data ->
  decode data = inr received ->
  same_on_the_wire ssf received ->
  Z.of_nat (length data) <= 16 * 1024 * 1024 ->
  Pool.all_reset pool ->
  exists out pool1,
    WriteSSF {| bytes.unread := [] |} ssf pool =
      ((length data, None), out, pool1) /\
    (forall fuel, exists pool2,
       ReadSSF (S fuel) out pool1 =
         Some (inr {| span := normalize ssf |},
               {| bytes.unread := [] |}, pool2)) /\
    ((0 < length data)%nat ->
     forall fuel evs,
       iotest.quiet evs ->
       iotest.data evs = bytes.unread out ->
       (length evs <= fuel)%nat ->
       exists evs' pool2,
         ReadSSF fuel {| iotest.events := evs |} pool1 =
           Some (inr {| span := normalize ssf |},
                 {| iotest.events := evs' |}, pool2) /\
         iotest.data evs' = []) /\
    (forall packet pool1 pool2,
       fst (ParseSSF packet pool1) = fst (ParseSSF packet pool2)).
Proof.
  intros Henc Hdec Hwire Hlen Hpool.
  assert (Hparse : forall pool0,
             fst (ParseSSF data pool0) = inr {| span := normalize ssf |}).
  { intros pool0. rewrite ParseSSF_result, Hdec.
    by rewrite (normalize_same_on_the_wire _ _ Hwire). }
  eexists _, _. split; [by apply Buffer_WriteSSF |].
  split; [| split].
  - intros fuel. eexists.
    rewrite Buffer_ReadSSF_frame by lia.
    unfold MaxSSFPacketLength. apply Z.ltb_ge in Hlen.
    by rewrite Hlen, Hparse.
  - intros Hsome fuel evs Hquiet Hdata Hfuel.
    cbn [bytes.unread] in Hdata.
    rewrite uint32_small, <- (app_nil_r data) in Hdata by lia.
    rewrite (app_nil_r data) in Hdata at 1.
    destruct (ReadSSF_script_frame fuel evs data []
                (Pool.Put (snd (Pool.Get pool)) NewBuffer)
                Hquiet Hdata Hsome Hlen Hfuel)
      as (evs' & Hread & Hrest & _).
    exists evs'. eexists. split; [| exact Hrest].
    by rewrite Hread, Hparse.
  - intros packet pool1 pool2. by rewrite !ParseSSF_result.
Qed.

End RoundTripStreams.

(** The span of the examples, read back from the buffer and from a stream
    that delivers the frame in three reads. *)
Lemma WriteSSF_ReadSSF_roundtrip_witness :
  exists out pool1,
    WriteSSF (codec := Fixture.one_span_codec)
      {| bytes.unread := [] |} Fixture.span_sent [] =
      ((4%nat, None), out, pool1) /\
    (exists pool2,
       ReadSSF (codec := Fixture.one_span_codec) 1 out pool1 =
         Some (inr {| span := normalize Fixture.span_sent |},
               {| bytes.unread := [] |}, pool2)) /\
    (exists evs' pool2,
       ReadSSF (codec := Fixture.one_span_codec) 3
         {| iotest.events :=
              [([x00; x00; x00], None); ([x00; x04; x18; x01], None);
               ([x10; x01], None)] |} pool1 =
         Some (inr {| span := normalize Fixture.span_sent |},
               {| iotest.events := evs' |}, pool2) /\
       iotest.data evs' = []).
Proof.
  destruct (WriteSSF_ReadSSF_roundtrip (codec := Fixture.one_span_codec)
              Fixture.span_sent Fixture.span_received
              [x18; x01; x10; x01] [])
    as (out & pool1 & Hwrite & Hbuffer & Hstream & _).
  - reflexivity.
  - reflexivity.
  - repeat split.
  - cbn. lia.
  - constructor.
  - exists out, pool1. split; [exact Hwrite |].
    split; [exact (Hbuffer 0%nat) |].
    assert (Hout : out =
              {| bytes.unread :=
                   [x00; x00; x00; x00; x04; x18; x01; x10; x01] |})
      by (injection Hwrite as <- _; reflexivity).
    apply Hstream.
    + cbn. lia.
    + repeat constructor.
    + by rewrite Hout.
    + cbn. lia.
Defined.

(** An empty payload on a stream that is at its end once the header is
    read: [readFrame] still makes a [Read], into an empty slice, and the
    stream answers it with [io.EOF]. *)
Lemma WriteSSF_ReadSSF_empty_payload :
  encode (Codec := Fixture.empty_codec) (Fixture.id_span 0) = inr [] /\
  decode (Codec := Fixture.empty_codec) [] = inr (Fixture.id_span 0) /\
  same_on_the_wire (Fixture.id_span 0) (Fixture.id_span 0) /\
  WriteSSF (codec := Fixture.empty_codec)
    {| bytes.unread := [] |} (Fixture.id_span 0) [] =
    ((0%nat, None), {| bytes.unread := [x00; x00; x00; x00; x00] |},
     [NewBuffer]) /\
  forall fuel,
    ReadSSF (codec := Fixture.empty_codec) (S fuel)
      {| iotest.events := [([x00; x00; x00; x00; x00], None)] |}
      [NewBuffer] =
      Some (inl (errFramingIO EOF), {| iotest.events := [] |}, [NewBuffer]).
Proof.
  split; [reflexivity |]. split; [reflexivity |]. split; [repeat split |].
  split; [reflexivity |].
  intros fuel. destruct fuel; reflexivity.
Qed.

(** A decoder that, as protobuf does, has no encoding for an empty map: the
    empty [Tags] of a sample come back nil, which normalization does not
    touch, so the span read is not the normalized span sent. *)
Lemma WriteSSF_ReadSSF_sample_tags :
  encode (Codec := Fixture.dropping_codec)
    (Fixture.span_sample_tags (Some ∅)) = inr [x18; x01; x10; x01] /\
  exists out pool1 pool2 m,
    WriteSSF (codec := Fixture.dropping_codec)
      {| bytes.unread := [] |} (Fixture.span_sample_tags (Some ∅)) [] =
      ((4%nat, None), out, pool1) /\
    ReadSSF (codec := Fixture.dropping_codec) 1 out pool1 =
      Some (inr m, {| bytes.unread := [] |}, pool2) /\
    span m <> normalize (Fixture.span_sample_tags (Some ∅)).
Proof.
  split; [reflexivity |].
  eexists _, _, _, _. split; [reflexivity |]. split; [reflexivity |].
  intros Heq. apply (f_equal Metrics) in Heq. vm_compute in Heq.
  discriminate Heq.
Qed.

(** C2 as stated fails three ways, each on a span that serializes: a payload
    longer than 16MB is written in full and read back as a frame length
    error; a payload of no bytes is read back as a framing I/O error from a
    stream that answers a read into an empty slice with [io.EOF]; and a
    span the decoder does not give back as it was sent is read back as
    another span than the normalized original. *)
Lemma WriteSSF_ReadSSF_roundtrip_fails :
  (exists out pool1,
     WriteSSF (codec := Fixture.oversize_codec)
       {| bytes.unread := [] |} Fixture.span_sent [] =
       ((Z.to_nat Fixture.oversize, None), out, pool1) /\
     forall fuel,
       ReadSSF (codec := Fixture.oversize_codec) (S fuel) out pool1 =
         Some (inl (errFrameLength 16777217),
               {| bytes.unread := repeat x00 (Z.to_nat Fixture.oversize) |},
               pool1)) /\
  (WriteSSF (codec := Fixture.empty_codec)
     {| bytes.unread := [] |} (Fixture.id_span 0) [] =
     ((0%nat, None), {| bytes.unread := [x00; x00; x00; x00; x00] |},
      [NewBuffer]) /\
   forall fuel,
     ReadSSF (codec := Fixture.empty_codec) (S fuel)
       {| iotest.events := [([x00; x00; x00; x00; x00], None)] |}
       [NewBuffer] =
       Some (inl (errFramingIO EOF), {| iotest.events := [] |},
             [NewBuffer])) /\
  (exists out pool1 pool2 m,
     WriteSSF (codec := Fixture.dropping_codec)
       {| bytes.unread := [] |} (Fixture.span_sample_tags (Some ∅)) [] =
       ((4%nat, None), out, pool1) /\
     ReadSSF (codec := Fixture.dropping_codec) 1 out pool1 =
       Some (inr m, {| bytes.unread := [] |}, pool2) /\
     span m <> normalize (Fixture.span_sample_tags (Some ∅))).
Proof.
  split; [| split].
  - exact (proj2 (proj2 (proj2 WriteSSF_ReadSSF_oversize_rejected))).
  - exact (proj2 (proj2 (proj2 WriteSSF_ReadSSF_empty_payload))).
  - exact (proj2 WriteSSF_ReadSSF_sample_tags).
Qed.

(** ** The further properties on concrete streams *)

(** A three-byte frame that arrives in two reads. *)
Lemma readFrame_returns_length_witness :
  readFrame 2
    {| iotest.events := [([x61], None); ([x62; x63; x64], None)] |} 3 =
    Some (([x61; x62; x63], None), {| iotest.events := [([x64], None)] |}) /\
  length [x61; x62; x63] = 3%nat.
Proof.
  assert (Hframe :
    readFrame 2
      {| iotest.events := [([x61], None); ([x62; x63; x64], None)] |} 3 =
      Some (([x61; x62; x63], None), {| iotest.events := [([x64], None)] |}))
    by reflexivity.
  split; [exact Hframe |].
  exact (readFrame_returns_length _ _ _ _ _ Hframe).
Defined.

Lemma WriteSSF_error_not_framing_witness :
  0%nat = 0%nat /\
  {| bytes.unread := [x2a] |} = {| bytes.unread := [x2a] |} /\
  exists err,
    encode (Codec := Fixture.failing_codec) Fixture.span_sent = inl err /\
    proto_error (ErrProto "proto: repeated field has nil element") =
      proto_error err.
Proof.
  apply (WriteSSF_error_not_framing (codec := Fixture.failing_codec)
           {| bytes.unread := [x2a] |} {| bytes.unread := [x2a] |}
           Fixture.span_sent [] [] 0
           (proto_error (ErrProto "proto: repeated field has nil element")));
    reflexivity.
Defined.

(** A frame whose payload the codec refuses, and a stream closed between
    frames. *)
Lemma ReadSSF_error_not_framing_witness :
  (io_error EOF = io_error EOF /\ [] = ([] : Pool.t) /\
   exists b,
     ReadAtLeast_loop 1 {| bytes.unread := [] |} [x00] 0 =
       Some ((b, 0%nat, Some EOF), {| bytes.unread := [] |})) \/
  (exists in0 bts err,
     readFrame 1 in0 (length bts) =
       Some ((bts, None), {| bytes.unread := [] |}) /\
     decode (Codec := Fixture.strict_codec) bts = inl err /\
     io_error EOF = proto_error err /\
     [] = Pool.Put (snd (Pool.Get [])) NewBuffer).
Proof.
  apply (ReadSSF_error_not_framing (codec := Fixture.strict_codec) 1
           {| bytes.unread := [] |} {| bytes.unread := [] |} [] []
           (io_error EOF));
    reflexivity.
Defined.

Lemma pool_stays_reset_witness :
  (forall (out : bytes.Buffer) ssf,
     Pool.all_reset
       (snd (WriteSSF (codec := Fixture.strict_codec) out ssf [NewBuffer]))) /\
  (forall packet,
     Pool.all_reset
       (snd (ParseSSF (codec := Fixture.strict_codec) packet [NewBuffer]))) /\
  (forall fuel (in_ in' : bytes.Buffer) res pool',
     ReadSSF (codec := Fixture.strict_codec) fuel in_ [NewBuffer] =
       Some (res, in', pool') ->
     Pool.all_reset pool').
Proof.
  apply (pool_stays_reset (codec := Fixture.strict_codec)
           (R := bytes.Buffer) (W := bytes.Buffer) [NewBuffer]).
  repeat constructor.
Defined.

Lemma ParseSSF_Metrics_rates_witness :
  Forall (fun sample => float32_is_zero (SampleRate sample) = false)
         (Metrics_of {| span := normalize Fixture.span_legacy |}) /\
  Tags (normalize Fixture.span_legacy) <> None.
Proof.
  apply (ParseSSF_Metrics_rates (codec := Fixture.legacy_codec)
           [x10; x01] [] [NewBuffer] {| span := normalize Fixture.span_legacy |}).
  reflexivity.
Defined.

Lemma WriteSSF_appends_one_frame_witness :
  exists frame pool',
    WriteSSF (codec := Fixture.one_span_codec)
      {| bytes.unread := [xff] |} Fixture.span_sent [] =
      ((4%nat, None), {| bytes.unread := [xff] ++ frame |}, pool') /\
    length frame = 9%nat /\
    firstn 1 frame = [version0] /\
    binary.Uint32 (firstn 4 (skipn 1 frame)) = 4 mod 2 ^ 32 /\
    skipn 5 frame = [x18; x01; x10; x01].
Proof.
  apply (WriteSSF_appends_one_frame (codec := Fixture.one_span_codec)
           {| bytes.unread := [xff] |} Fixture.span_sent []
           [x18; x01; x10; x01]).
  - reflexivity.
  - constructor.
Defined.

(** A frame with two bytes behind it, and a frame with no payload. *)
Lemma ReadSSF_consumes_one_frame_witness :
  ReadSSF (codec := Fixture.strict_codec) 1
    {| bytes.unread :=
         [x00; x00; x00; x00; x04; x18; x01; x10; x01; x00; xff] |} [] =
    Some (inr {| span := normalize Fixture.span_received |},
          {| bytes.unread := [x00; xff] |}, [NewBuffer]) /\
  ReadSSF (codec := Fixture.strict_codec) 1
    {| bytes.unread := [x00; x00; x00; x00; x00] |} [] =
    Some (inl (proto_error (ErrProto "proto: bad wiretype")),
          {| bytes.unread := [] |}, [NewBuffer]).
Proof.
  split.
  - apply (ReadSSF_consumes_one_frame (codec := Fixture.strict_codec) 0
             [x18; x01; x10; x01] [x00; xff] []).
    cbn. lia.
  - apply (ReadSSF_consumes_one_frame (codec := Fixture.strict_codec) 0
             [] [] []).
    cbn. lia.
Defined.

Lemma ReadSSF_decode_error_recoverable_witness :
  exists in1 pool1 pool2,
    ReadSSF (codec := Fixture.strict_codec) 1
      {| bytes.unread :=
           [x00; x00; x00; x00; x02; xff; xff;
            x00; x00; x00; x00; x02; x18; x01; x2a] |} [] =
      Some (inl (proto_error (ErrProto "proto: bad wiretype")), in1, pool1) /\
    IsFramingError (proto_error (ErrProto "proto: bad wiretype")) = false /\
    ReadSSF (codec := Fixture.strict_codec) 1 in1 pool1 =
      Some (inr {| span := normalize Fixture.span_received |},
            {| bytes.unread := [x2a] |}, pool2).
Proof.
  apply (ReadSSF_decode_error_recoverable (codec := Fixture.strict_codec) 0
           [xff; xff] [x18; x01] [x2a] []
           (ErrProto "proto: bad wiretype") Fixture.span_received).
  - cbn. lia.
  - cbn. lia.
  - reflexivity.
  - reflexivity.
Defined.

(** Two spans that differ in their [Id], written 1 then 2 and read back 1
    then 2. *)
Lemma WriteSSF_twice_ReadSSF_twice_witness :
  exists out1 out2 in1 p1 p2 p3 p4,
    WriteSSF (codec := Fixture.id_codec)
      {| bytes.unread := [] |} (Fixture.id_span 1) [] =
      ((2%nat, None), out1, p1) /\
    WriteSSF (codec := Fixture.id_codec) out1 (Fixture.id_span 2) p1 =
      ((2%nat, None), out2, p2) /\
    ReadSSF (codec := Fixture.id_codec) 1 out2 p2 =
      Some (inr {| span := normalize (Fixture.id_span 1) |}, in1, p3) /\
    ReadSSF (codec := Fixture.id_codec) 1 in1 p3 =
      Some (inr {| span := normalize (Fixture.id_span 2) |},
            {| bytes.unread := [] |}, p4).
Proof.
  apply (WriteSSF_twice_ReadSSF_twice (codec := Fixture.id_codec) 0
           (Fixture.id_span 1) (Fixture.id_span 2)
           [x18; x01] [x18; x02] []).
  - reflexivity.
  - reflexivity.
  - cbn. lia.
  - cbn. lia.
  - constructor.
Defined.

(** A header that declares four bytes, and two bytes behind it. *)
Lemma ReadSSF_truncated_payload_witness :
  ReadSSF (codec := Fixture.one_span_codec) 2
    {| bytes.unread := [x00; x00; x00; x00; x04; x18; x01] |} [] =
    Some (inl (errFramingIO EOF), {| bytes.unread := [] |}, []) /\
  IsFramingError (errFramingIO EOF) = true.
Proof.
  apply (ReadSSF_truncated_payload (codec := Fixture.one_span_codec) 0 4
           [x18; x01] []).
  - lia.
  - cbn. lia.
Defined.

(** A frame that arrives in five reads, one of them empty, the last one
    running into the next frame. *)
Lemma ReadSSF_on_fragments_witness :
  exists evs',
    ReadSSF (codec := Fixture.one_span_codec) 5
      {| iotest.events :=
           [([x00; x00], None); ([x00; x00; x04; x18], None); ([x01], None);
            ([], None); ([x10; x01; xff], None)] |} [] =
      Some (inr {| span := normalize Fixture.span_received |},
            {| iotest.events := evs' |}, [NewBuffer]) /\
    iotest.data evs' = [xff] /\ iotest.quiet evs'.
Proof.
  apply (ReadSSF_on_fragments (codec := Fixture.one_span_codec) 5
           [([x00; x00], None); ([x00; x00; x04; x18], None); ([x01], None);
            ([], None); ([x10; x01; xff], None)]
           [x18; x01; x10; x01] [xff] []).
  - repeat constructor.
  - reflexivity.
  - cbn. lia.
  - cbn. lia.
  - cbn. lia.
Defined.
